(** * imagelist-docker-events: a shallow embedding of [main.go]

    The development follows the source file top to bottom:
    - [RegexpSyntax], [TagRegexp]
                    the package-level [tagRegexp]: the pattern as written,
                    and the three [regexp] methods the program calls on it;
    - [Resolver]    [mapRepoDigestsToTags] and [getRepoDigests];
    - [Publisher]   the retry loop of [addToImageList];
    - [EventLoop]   [processEvents];
    - [NetURL]      [joinURL] over a model of Go's [net/url].

    Go strings are byte strings: they are modelled by [string] (a list of
    8-bit [ascii]). *)

From Stdlib Require Import String Ascii List Arith ZArith Lia Bool.
From stdpp Require Import base option list strings gmap fin_maps.

Local Open Scope list_scope.
Local Open Scope string_scope.

(* stdpp stops [simpl] at string concatenation; the proofs below compute
   through it. *)
#[local] Arguments String.append _ _ : simpl nomatch.

(** ** Go's [strings] helpers used by the program *)

Module GoStrings.

(** [strings.HasPrefix(s, prefix)]. *)
Definition HasPrefix (s pre : string) : bool := String.prefix pre s.

End GoStrings.

(** ** [tagRegexp = regexp.MustCompile(`:([\w][\w.-]{0,127})$`)] *)

(** The fragment of Go's regexp syntax the pattern is written in, and what
    it means for an expression to match a piece of text. *)
Module RegexpSyntax.

Inductive regex :=
| Lit (c : ascii)                    (* a literal character *)
| Class (p : ascii -> bool)          (* a character class *)
| Seq (r1 r2 : regex)                (* r1r2 *)
| Rep (r : regex) (lo hi : nat)      (* r{lo,hi} *)
| Group (r : regex)                  (* (r), capturing *)
| EndText.                           (* $ without the m flag *)

(** [matches r w rest]: [r] matches the text [w] when [rest] is what follows
    [w] in the input. *)
Inductive matches : regex -> string -> string -> Prop :=
| m_lit c rest : matches (Lit c) (String c "") rest
| m_class (p : ascii -> bool) c rest :
    p c = true -> matches (Class p) (String c "") rest
| m_seq r1 r2 w1 w2 rest :
    matches r1 w1 (w2 ++ rest) -> matches r2 w2 rest ->
    matches (Seq r1 r2) (w1 ++ w2) rest
| m_rep_stop r hi rest : matches (Rep r 0 hi) "" rest
| m_rep_more r lo hi w1 w2 rest :
    matches r w1 (w2 ++ rest) -> matches (Rep r (Nat.pred lo) hi) w2 rest ->
    matches (Rep r lo (S hi)) (w1 ++ w2) rest
| m_group r w rest : matches r w rest -> matches (Group r) w rest
| m_end : matches EndText "" "".

End RegexpSyntax.

Module TagRegexp.
Import RegexpSyntax.

Definition in_range (lo hi c : ascii) : bool :=
  (nat_of_ascii lo <=? nat_of_ascii c)%nat && (nat_of_ascii c <=? nat_of_ascii hi)%nat.

(** The Perl class [\w] of Go's regexp syntax: [[0-9A-Za-z_]], ASCII only. *)
Definition isWord (c : ascii) : bool :=
  in_range "0" "9" c || in_range "A" "Z" c || in_range "a" "z" c || Ascii.eqb c "_".

(** The bracket class [[\w.-]]. *)
Definition isTagChar (c : ascii) : bool :=
  isWord c || Ascii.eqb c "." || Ascii.eqb c "-".

(** Greedy bounded repetition [[\w.-]{0,n}]: the characters consumed and
    the text left. *)
Fixpoint repTagChar (n : nat) (s : string) : string * string :=
  match n, s with
  | S n', String c s' =>
      if isTagChar c
      then let '(tok, rest) := repTagChar n' s' in (String c tok, rest)
      else ("", s)
  | _, _ => ("", s)
  end.

(** The pattern, as written. *)
Definition tagPattern : regex :=
  Seq (Lit ":")
      (Seq (Group (Seq (Class isWord) (Rep (Class isTagChar) 0 127))) EndText).

(** The pattern tried at the start of [s]; the result is capture group 1.
    The pattern ends in [$] (no [m] flag: end of text) and every shorter
    repetition leaves more text before the end, so the greedy repetition is
    the only one that can succeed. *)
Definition matchHere (s : string) : option string :=
  match s with
  | String c0 (String c s') =>
      if Ascii.eqb c0 ":" && isWord c
      then let '(tok, rest) := repTagChar 127 s' in
           if String.eqb rest "" then Some (String c tok) else None
      else None
  | _ => None
  end.

(** Leftmost match in [s]: the text before the match, the matched text and
    capture group 1. *)
Fixpoint find (s : string) : option (string * string * string) :=
  match matchHere s with
  | Some g => Some ("", s, g)
  | None =>
      match s with
      | "" => None
      | String c s' =>
          match find s' with
          | Some (before, whole, g) => Some (String c before, whole, g)
          | None => None
          end
      end
  end.

(** [tagRegexp.MatchString(s)]. *)
Definition MatchString (s : string) : bool :=
  match find s with Some _ => true | None => false end.

(** [tagRegexp.FindStringSubmatch(s)]: the whole match followed by the
    capture group, or [nil]. *)
Definition FindStringSubmatch (s : string) : list string :=
  match find s with
  | Some (_, whole, g) => [whole; g]
  | None => []
  end.

(** [tagRegexp.ReplaceAllString(s, repl)] for a [repl] without [$]
    expansions.  A match of this pattern always extends to the end of the
    text, so after the first replacement nothing is left to search. *)
Definition ReplaceAllString (s repl : string) : string :=
  match find s with
  | Some (before, _, _) => before ++ repl
  | None => s
  end.

(** A tag token: one word character followed by at most 127 characters of
    [[\w.-]]. *)
Fixpoint allTagChars (t : string) : bool :=
  match t with
  | "" => true
  | String c t' => isTagChar c && allTagChars t'
  end.

Definition isTag (t : string) : bool :=
  match t with
  | "" => false
  | String c t' => isWord c && allTagChars t' && (String.length t' <=? 127)%nat
  end.

(** Whether a text holds a colon. *)
Fixpoint hasColon (s : string) : bool :=
  match s with
  | "" => false
  | String c s' => Ascii.eqb c ":" || hasColon s'
  end.


(** The spec's reading of the pattern: the text ends in [":" ++ t] for a
    tag token [t]. *)
Definition hasTagSuffix (s : string) : Prop :=
  exists before t, s = before ++ ":" ++ t /\ isTag t = true.

End TagRegexp.

(** ** The Digest Resolver: [mapRepoDigestsToTags] and [getRepoDigests] *)

Module Resolver.
Import GoStrings TagRegexp.

(** The two fields of [types.ImageInspect] the program reads. *)
Record ImageInspect := {
  RepoTags : list string;
  RepoDigests : list string
}.

(** [type image struct { ID, Name string; Tags []string }]. *)
Record image := {
  ID : string;
  Name : string;
  Tags : list string
}.

(** Go [error] values that reach [getRepoDigests]: the two it builds with
    [fmt.Errorf] and the ones handed back by the Docker client. *)
Inductive error :=
| ErrClient (msg : string)
    (* returned by client.NewEnvClient *)
| ErrInspect (msg : string)
    (* returned by ImageInspectWithRaw *)
| ErrNoTag (name : string)
    (* "unable to find image %q without a tag" *)
| ErrNoDigests (name : string).
    (* "unable to find repo digests for %q image" *)

(** The Docker daemon as [getRepoDigests] sees it. *)
Record Docker := {
  NewEnvClient : option string;
    (* [None]: a client; [Some msg]: the connection error *)
  ImageInspectWithRaw : string -> ImageInspect + string
    (* the inspection result, or the lookup error *)
}.

(** The first loop of [mapRepoDigestsToTags]: the tags of the repo-tag
    entries that start with [name]. *)
Definition collectTags (name : string) (repoTags : list string) : list string :=
  fold_left
    (fun tags entry =>
       if HasPrefix entry name
       then match FindStringSubmatch entry with
            | [_; t] => (tags ++ [t])%list     (* len(matches) == 2 *)
            | _ => tags
            end
       else tags)
    repoTags [].

Definition mapRepoDigestsToTags (name : string) (image : ImageInspect)
  : gmap string (list string) :=
  if String.eqb name "" then ∅
  else
    (* trim a tag from image name if exists *)
    let name := ReplaceAllString name "" in
    let tags := collectTags name (RepoTags image) in
    fold_left
      (fun m entry => if HasPrefix entry name then <[entry := tags]> m else m)
      (RepoDigests image) ∅.

(** [for k, v := range m] visits every entry of a Go map once, in an order
    the language leaves unspecified and that changes from one loop to the
    next.  A [RangeOrder] is one such order. *)
Record RangeOrder := {
  range :> gmap string (list string) -> list (string * list string);
  range_perm : forall m, range m ≡ₚ map_to_list m
}.

(** The order in which stdpp lists a map. *)
Definition listingOrder : RangeOrder :=
  {| range := map_to_list; range_perm := fun m => reflexivity _ |}.

(** The same listing backwards: another order a [range] loop may take. *)
Definition reverseOrder : RangeOrder :=
  {| range := fun m => rev (map_to_list m);
     range_perm := fun m => Permutation_sym (Permutation_rev (map_to_list m)) |}.

(** [getRepoDigests(name)] returns [(images, err)]; [images] is [nil] on
    every error path. *)
Definition getRepoDigests (docker : Docker) (order : RangeOrder) (name : string)
  : list image * option error :=
  let images : list image := [] in
  match NewEnvClient docker with
  | Some e => (images, Some (ErrClient e))
  | None =>
      if negb (MatchString name) then (images, Some (ErrNoTag name))
      else
        match ImageInspectWithRaw docker name with
        | inr e => (images, Some (ErrInspect e))
        | inl imageInspect =>
            let dm := mapRepoDigestsToTags name imageInspect in
            if (size dm =? 0)%nat then (images, Some (ErrNoDigests name))
            else
              (fold_left
                 (fun images '(k, v) =>
                    (images ++ [{| ID := k; Name := ReplaceAllString name ""; Tags := v |}])%list)
                 (order (mapRepoDigestsToTags name imageInspect)) images,
               None)
        end
  end.

(** The tag, if any, that one repo-tag entry contributes for the prefix
    [name]. *)
Definition entryTag (name entry : string) : list string :=
  if HasPrefix entry name
  then match FindStringSubmatch entry with
       | [_; t] => [t]
       | _ => []
       end
  else [].

(** The record [getRepoDigests] builds from one map entry. *)
Definition record (name : string) (kv : string * list string) : image :=
  {| ID := kv.1; Name := ReplaceAllString name ""; Tags := kv.2 |}.

End Resolver.

(** ** The Publisher: the goroutine body inside [addToImageList] *)

Module Publisher.
Import Resolver.

(** What one pass through the loop body meets: [json.Marshal] fails, or
    [httpPut] fails, or [httpPut] hands back a response. *)
Inductive outcome :=
| MarshalError (e : string)
| TransportError (e : string)
| Response (StatusCode : Z).

(** The six [logger.Printf] calls of the loop, in source order, and the
    [logger.Print(err)] of [addToImageList]. *)
Inductive logline :=
| LogMaxRetries (name : string)
    (* "error submitting %s image: max retries reached" *)
| LogMarshalError (iname e : string)
    (* "error submitting %q image: %v" after json.Marshal *)
| LogPutError (iname e : string)
    (* "error submitting %q image: %v" after httpPut *)
| LogSubmitted (i : image)
    (* "submitted %+v" *)
| LogStatus500 (name : string) (code : Z)
    (* "... got http status code %d from imagelist" *)
| LogBadRequest (name : string) (code : Z)
    (* "... bad request, status %d from imagelist" *)
| LogError (e : error).

(** Observable steps of one goroutine. *)
Inductive event :=
| Sleep3s                            (* <-time.After(time.Second * 3) *)
| Put (url : string) (body : image)  (* httpPut(url, "application/json", json of body) *)
| Log (l : logline)
| Drain (attempt : nat).             (* deferred: drain and close the body of that attempt's response *)

Inductive terminal := Succeeded | GivenUp.

(** The goroutine when it has returned. *)
Record finished := {
  attempts : nat;        (* final value of [attempt] *)
  final : terminal;
  trace : list event     (* in the order they happened *)
}.

Definition http_StatusOK : Z := 200.
Definition http_StatusInternalServerError : Z := 500.

Section Loop.
(** [name] and [url] are captured from [addToImageList], [i] is the
    goroutine's argument; [world n] is what the [n]-th pass meets. *)
Variables (name url : string) (i : image) (world : nat -> outcome).

(** [return]: the deferred closures run, last registered first. *)
Definition ret (t : terminal) (attempt : nat) (defers : list nat) (tr : list event)
  : option finished :=
  Some {| attempts := attempt; final := t; trace := (tr ++ map Drain defers)%list |}.

(** The [for { ... }] loop from the state at its head; one unit of [fuel]
    per pass, [None] when the fuel runs out first. *)
Fixpoint loop (fuel : nat) (attempt : nat) (defers : list nat) (tr : list event)
  : option finished :=
  match fuel with
  | O => None
  | S fuel =>
      if (attempt =? 30)%nat
      then ret GivenUp attempt defers (tr ++ [Log (LogMaxRetries name)])%list
      else
        let tr := if negb (attempt =? 0)%nat then (tr ++ [Sleep3s])%list else tr in
        let attempt := (attempt + 1)%nat in
        match world attempt with
        | MarshalError e =>
            ret GivenUp attempt defers (tr ++ [Log (LogMarshalError (Name i) e)])%list
        | TransportError e =>
            loop fuel attempt defers
              (tr ++ [Put url i; Log (LogPutError (Name i) e)])%list
        | Response StatusCode =>
            let tr := (tr ++ [Put url i])%list in
            let defers := attempt :: defers in
            if (StatusCode =? http_StatusOK)%Z
            then ret Succeeded attempt defers (tr ++ [Log (LogSubmitted i)])%list
            else if (StatusCode =? http_StatusInternalServerError)%Z
            then loop fuel attempt defers (tr ++ [Log (LogStatus500 name StatusCode)])%list
            else ret GivenUp attempt defers (tr ++ [Log (LogBadRequest name StatusCode)])%list
        end
  end.

(** [go func(i image) { attempt := 0; for { ... } }(i)]. *)
Definition publish (fuel : nat) : option finished := loop fuel 0 [] [].
End Loop.

(** Number of [httpPut] calls in a trace. *)
Definition puts (tr : list event) : nat :=
  length (List.filter (fun e => match e with Put _ _ => true | _ => false end) tr).

Definition isSuccessLog (e : event) : bool :=
  match e with Log (LogSubmitted _) => true | _ => false end.

(** Whether a trace holds a ["submitted ..."] line. *)
Definition successLogged (tr : list event) : bool := existsb isSuccessLog tr.

(** The trace after the wait that precedes every attempt but the first:
    [if attempt != 0 { <-time.After(time.Second * 3) }]. *)
Definition waited (attempt : nat) (tr : list event) : list event :=
  if negb (attempt =? 0)%nat then (tr ++ [Sleep3s])%list else tr.

(** Number of three-second waits in a trace. *)
Definition sleeps (tr : list event) : nat :=
  length (List.filter (fun e => match e with Sleep3s => true | _ => false end) tr).

(** The response bodies drained in a trace, by attempt, in the order they
    were drained. *)
Definition drained (tr : list event) : list nat :=
  flat_map (fun e => match e with Drain n => [n] | _ => [] end) tr.

Definition isResponse (o : outcome) : bool :=
  match o with Response _ => true | _ => false end.

Definition isMarshalError (o : outcome) : bool :=
  match o with MarshalError _ => true | _ => false end.

(** An event of the goroutine started for [name], [url] and the record [i]:
    a request is the PUT of [i] to [url], a success line shows [i], an error
    line names [name] or the record's own name. *)
Definition ownEvent (name url : string) (i : image) (e : event) : Prop :=
  match e with
  | Put u body => u = url /\ body = i
  | Log (LogSubmitted j) => j = i
  | Log (LogMaxRetries n) | Log (LogStatus500 n _) | Log (LogBadRequest n _) => n = name
  | Log (LogMarshalError n _) | Log (LogPutError n _) => n = Name i
  | Log (LogError _) => False
  | Sleep3s | Drain _ => True
  end.

(** A transient failure: a transport error or an HTTP 500. *)
Definition transient (o : outcome) : bool :=
  match o with
  | TransportError _ => true
  | Response c => (c =? http_StatusInternalServerError)%Z
  | MarshalError _ => false
  end.

(** A [go] statement: what was started, with its arguments. *)
Inductive goroutine :=
| GoPublish (name url : string) (i : image)
| GoAddToImageList (name url : string).

(** [addToImageList(name, url)]: what it logs itself and the goroutines it
    starts, one per image. *)
Definition addToImageList (docker : Docker) (order : RangeOrder) (name url : string)
  : list logline * list goroutine :=
  let '(images, err) := getRepoDigests docker order name in
  match err with
  | Some e => ([LogError e], [])
  | None => ([], map (fun i => GoPublish name url i) images)
  end.

End Publisher.

(** ** The Event Loop: [processEvents] *)

Module EventLoop.
Import Publisher.

(** The fields of [events.Message] the program reads; [Type_] is the Go
    field [Type]. *)
Record Message := {
  Type_ : string;
  Action : string;
  ID : string
}.

(** A value received from the [errs] channel. *)
Inductive chanErr :=
| ErrNil
| ErrEOF                    (* io.EOF *)
| ErrOther (msg : string).

(** The case [select] takes. *)
Inductive received :=
| FromErrs (err : chanErr)
| FromMessages (m : Message).

(** [fmt.Errorf("error: failed to read events: %v", err)]. *)
Inductive loopError := ErrReadEvents (err : chanErr).

(** [processEvents(messages, errs, url)]: the goroutines started and the
    error returned. *)
Definition processEvents (sel : received) (url : string)
  : list goroutine * option loopError :=
  match sel with
  | FromErrs err =>
      match err with
      | ErrOther _ => ([], Some (ErrReadEvents err))   (* err != nil && err != io.EOF *)
      | _ => ([], None)
      end
  | FromMessages m =>
      if String.eqb (Type_ m) "image" && String.eqb (Action m) "push"
      then ([GoAddToImageList (ID m) url], None)
      else ([], None)
  end.

End EventLoop.

(** ** More of Go's [strings], as [net/url] uses it *)

Module GoStringsURL.

(** [s[:n]] and [s[n:]]. *)
Fixpoint sliceTo (n : nat) (s : string) : string :=
  match n, s with
  | S n', String c s' => String c (sliceTo n' s')
  | _, _ => ""
  end.

Fixpoint sliceFrom (n : nat) (s : string) : string :=
  match n, s with
  | S n', String _ s' => sliceFrom n' s'
  | _, _ => s
  end.

(** [strings.Index(s, sep)]; [None] is Go's [-1]. *)
Fixpoint Index (s sep : string) : option nat :=
  if String.prefix sep s then Some O
  else match s with
       | "" => None
       | String _ s' => option_map S (Index s' sep)
       end.

(** [strings.LastIndex(s, sep)]. *)
Fixpoint LastIndex (s sep : string) : option nat :=
  match s with
  | "" => if String.prefix sep s then Some O else None
  | String _ s' =>
      match LastIndex s' sep with
      | Some k => Some (S k)
      | None => if String.prefix sep s then Some O else None
      end
  end.

Definition Contains (s sep : string) : bool :=
  match Index s sep with Some _ => true | None => false end.

(** [strings.Count(s, sep)] for a one-byte [sep]. *)
Fixpoint CountByte (s : string) (sep : ascii) : nat :=
  match s with
  | "" => O
  | String c s' => ((if Ascii.eqb c sep then 1 else 0) + CountByte s' sep)%nat
  end.

(** [strings.HasSuffix(s, suffix)] for a one-byte [suffix]. *)
Fixpoint HasSuffixByte (s : string) (suffix : ascii) : bool :=
  match s with
  | "" => false
  | String c "" => Ascii.eqb c suffix
  | String _ s' => HasSuffixByte s' suffix
  end.

(** [strings.Split(s, sep)] for a one-byte [sep]. *)
Fixpoint SplitByte (s : string) (sep : ascii) : list string :=
  match s with
  | "" => [""]
  | String c s' =>
      match SplitByte s' sep with
      | first :: others =>
          if Ascii.eqb c sep then "" :: first :: others
          else String c first :: others
      | [] => [String c ""]
      end
  end.

(** [strings.Join(elems, sep)]. *)
Fixpoint Join (elems : list string) (sep : string) : string :=
  match elems with
  | [] => ""
  | [e] => e
  | e :: rest => e ++ sep ++ Join rest sep
  end.

(** [strings.TrimLeft(s, cutset)] for a one-byte [cutset]. *)
Fixpoint TrimLeftByte (s : string) (cut : ascii) : string :=
  match s with
  | String c s' => if Ascii.eqb c cut then TrimLeftByte s' cut else s
  | "" => ""
  end.

Definition byte_le (a b : ascii) : bool := (nat_of_ascii a <=? nat_of_ascii b)%nat.
Definition between (lo hi c : ascii) : bool := byte_le lo c && byte_le c hi.

(** [strings.ToLower] on ASCII letters (the only letters a scheme has). *)
Definition lowerByte (c : ascii) : ascii :=
  if between "A" "Z" c then ascii_of_nat (nat_of_ascii c + 32) else c.

Fixpoint ToLower (s : string) : string :=
  match s with
  | "" => ""
  | String c s' => String (lowerByte c) (ToLower s')
  end.

(** Membership of a byte in a [switch c { case ... }] list. *)
Fixpoint oneOf (c : ascii) (cases : string) : bool :=
  match cases with
  | "" => false
  | String d cases' => Ascii.eqb c d || oneOf c cases'
  end.

End GoStringsURL.

(** ** Go's [net/url]: [Parse], [ResolveReference] and [String]

    [joinURL] is three calls into the standard library.  The definitions
    below follow [net/url/url.go] of the Go releases of the program's time
    (Go 1.10 and 1.11), function by function and under the library's names;
    errors are kept without the [*url.Error] wrapper [Parse] puts around
    them. *)

Module NetURL.
Import GoStrings GoStringsURL.

Inductive encoding :=
| encodePath | encodePathSegment | encodeHost | encodeZone
| encodeUserPassword | encodeQueryComponent | encodeFragment.

Definition isHostMode (mode : encoding) : bool :=
  match mode with encodeHost | encodeZone => true | _ => false end.

Inductive urlError :=
| EscapeError (s : string)           (* invalid URL escape *)
| InvalidHostError (s : string)      (* invalid character in host name *)
| ErrMissingScheme                   (* "missing protocol scheme" *)
| ErrColonInFirstSegment             (* "first path segment in URL cannot contain colon" *)
| ErrMissingBracket                  (* "missing ']' in host" *)
| ErrInvalidPort (colonPort : string)
| ErrInvalidUserinfo.                (* "net/url: invalid userinfo" *)

Record Userinfo := {
  username : string;
  password : string;
  passwordSet : bool
}.

Record URL := {
  Scheme : string;
  Opaque : string;
  User : option Userinfo;
  Host : string;
  Path : string;
  RawPath : string;
  ForceQuery : bool;
  RawQuery : string;
  Fragment : string
}.

Definition quote : ascii := ascii_of_nat 34.

Definition isAlnum (c : ascii) : bool :=
  between "A" "Z" c || between "a" "z" c || between "0" "9" c.

Definition ishex (c : ascii) : bool :=
  between "0" "9" c || between "a" "f" c || between "A" "F" c.

Definition unhex (c : ascii) : nat :=
  if between "0" "9" c then nat_of_ascii c - nat_of_ascii "0"
  else if between "a" "f" c then nat_of_ascii c - nat_of_ascii "a" + 10
  else if between "A" "F" c then nat_of_ascii c - nat_of_ascii "A" + 10
  else 0.

Definition shouldEscape (c : ascii) (mode : encoding) : bool :=
  if isAlnum c then false
  else if isHostMode mode && (oneOf c "!$&'()*+,;=:[]<>" || Ascii.eqb c quote) then false
  else if oneOf c "-_.~" then false
  else if oneOf c "$&+,/:;=?@" then
    match mode with
    | encodePath => Ascii.eqb c "?"
    | encodePathSegment => oneOf c "/;,?"
    | encodeUserPassword => oneOf c "@/?:"
    | encodeQueryComponent => true
    | encodeFragment => false
    | _ => true
    end
  else true.

Definition upperhex : string := "0123456789ABCDEF".

Definition hexDigit (n : nat) : ascii :=
  match String.get n upperhex with Some d => d | None => "0"%char end.

(** [escape(s, mode)]. *)
Fixpoint escape (s : string) (mode : encoding) : string :=
  match s with
  | "" => ""
  | String c s' =>
      let rest := escape s' mode in
      match mode with
      | encodeQueryComponent =>
          if Ascii.eqb c " " then String "+" rest
          else if shouldEscape c mode
          then String "%" (String (hexDigit (nat_of_ascii c / 16))
                             (String (hexDigit (nat_of_ascii c mod 16)) rest))
          else String c rest
      | _ =>
          if shouldEscape c mode
          then String "%" (String (hexDigit (nat_of_ascii c / 16))
                             (String (hexDigit (nat_of_ascii c mod 16)) rest))
          else String c rest
      end
  end.

(** First loop of [unescape]: the escapes are well formed and allowed in
    this part of the URL. *)
Fixpoint unescapeCheck (s : string) (mode : encoding) : option urlError :=
  match s with
  | "" => None
  | String "%" (String h1 (String h2 s')) =>
      if negb (ishex h1 && ishex h2) then Some (EscapeError (sliceTo 3 s))
      else
        let is25 := Ascii.eqb h1 "2" && Ascii.eqb h2 "5" in
        let v := ascii_of_nat (unhex h1 * 16 + unhex h2) in
        match mode with
        | encodeHost =>
            if (unhex h1 <? 8)%nat && negb is25
            then Some (EscapeError (sliceTo 3 s))
            else unescapeCheck s' mode
        | encodeZone =>
            if negb is25 && negb (Ascii.eqb v " ") && shouldEscape v encodeHost
            then Some (EscapeError (sliceTo 3 s))
            else unescapeCheck s' mode
        | _ => unescapeCheck s' mode
        end
  | String "%" _ => Some (EscapeError (sliceTo 3 s))
  | String "+" s' => unescapeCheck s' mode
  | String c s' =>
      if isHostMode mode && (nat_of_ascii c <? 128)%nat && shouldEscape c encodeHost
      then Some (InvalidHostError (String c ""))
      else unescapeCheck s' mode
  end.

(** Second loop of [unescape]: the decoded bytes. *)
Fixpoint unescapeBytes (s : string) (mode : encoding) : string :=
  match s with
  | "" => ""
  | String "%" (String h1 (String h2 s')) =>
      String (ascii_of_nat (unhex h1 * 16 + unhex h2)) (unescapeBytes s' mode)
  | String "+" s' =>
      String (match mode with encodeQueryComponent => " " | _ => "+" end)%char
             (unescapeBytes s' mode)
  | String c s' => String c (unescapeBytes s' mode)
  end.

Definition unescape (s : string) (mode : encoding) : string + urlError :=
  match unescapeCheck s mode with
  | Some e => inr e
  | None => inl (unescapeBytes s mode)
  end.

(** [getscheme(rawurl)]: [(scheme, path, err)]. *)
Fixpoint getschemeFrom (i : nat) (rawurl rest : string) : string * string * option urlError :=
  match rest with
  | "" => ("", rawurl, None)
  | String c rest' =>
      if between "a" "z" c || between "A" "Z" c then getschemeFrom (S i) rawurl rest'
      else if between "0" "9" c || oneOf c "+-." then
        if (i =? 0)%nat then ("", rawurl, None) else getschemeFrom (S i) rawurl rest'
      else if Ascii.eqb c ":" then
        if (i =? 0)%nat then ("", "", Some ErrMissingScheme)
        else (sliceTo i rawurl, sliceFrom (S i) rawurl, None)
      else ("", rawurl, None)
  end.

Definition getscheme (rawurl : string) : string * string * option urlError :=
  getschemeFrom 0 rawurl rawurl.

(** [split(s, c, cutc)]. *)
Definition split (s c : string) (cutc : bool) : string * string :=
  match Index s c with
  | None => (s, "")
  | Some i =>
      if cutc then (sliceTo i s, sliceFrom (i + String.length c) s)
      else (sliceTo i s, sliceFrom i s)
  end.

Definition validOptionalPort (port : string) : bool :=
  match port with
  | "" => true
  | String c digits =>
      Ascii.eqb c ":" && forallb (between "0" "9") (list_ascii_of_string digits)
  end.

Definition validUserinfo (s : string) : bool :=
  forallb (fun r => isAlnum r || oneOf r "-._:~!$&'()*+,;=%@") (list_ascii_of_string s).

(** [parseHost(host)]. *)
Definition parseHost (host : string) : string + urlError :=
  let plain := unescape host encodeHost in
  if HasPrefix host "[" then
    match LastIndex host "]" with
    | None => inr ErrMissingBracket
    | Some i =>
        let colonPort := sliceFrom (i + 1) host in
        if negb (validOptionalPort colonPort) then inr (ErrInvalidPort colonPort)
        else
          match Index (sliceTo i host) "%25" with
          | Some zone =>
              match unescape (sliceTo zone host) encodeHost with
              | inr e => inr e
              | inl host1 =>
                  match unescape (sliceFrom zone (sliceTo i host)) encodeZone with
                  | inr e => inr e
                  | inl host2 =>
                      match unescape (sliceFrom i host) encodeHost with
                      | inr e => inr e
                      | inl host3 => inl (host1 ++ host2 ++ host3)
                      end
                  end
              end
          | None => plain
          end
    end
  else plain.

(** [parseAuthority(authority)]: [(user, host)] or the error. *)
Definition parseAuthority (authority : string) : (option Userinfo * string) + urlError :=
  let i := LastIndex authority "@" in
  match parseHost (match i with None => authority | Some i => sliceFrom (i + 1) authority end) with
  | inr e => inr e
  | inl host =>
      match i with
      | None => inl (None, host)
      | Some i =>
          let userinfo := sliceTo i authority in
          if negb (validUserinfo userinfo) then inr ErrInvalidUserinfo
          else if negb (Contains userinfo ":") then
            match unescape userinfo encodeUserPassword with
            | inr e => inr e
            | inl userinfo =>
                inl (Some {| username := userinfo; password := ""; passwordSet := false |}, host)
            end
          else
            let '(username, password) := split userinfo ":" true in
            match unescape username encodeUserPassword with
            | inr e => inr e
            | inl username =>
                match unescape password encodeUserPassword with
                | inr e => inr e
                | inl password =>
                    inl (Some {| username := username; password := password;
                                 passwordSet := true |}, host)
                end
            end
      end
  end.

(** [u.setPath(p)]: the updated URL, or the error (and [u] unchanged). *)
Definition setPath (u : URL) (p : string) : URL + urlError :=
  match unescape p encodePath with
  | inr e => inr e
  | inl path =>
      let escp := escape path encodePath in
      inl {| Scheme := Scheme u; Opaque := Opaque u; User := User u; Host := Host u;
             Path := path;
             RawPath := if String.eqb p escp then "" else p;
             ForceQuery := ForceQuery u; RawQuery := RawQuery u; Fragment := Fragment u |}
  end.

Definition validEncodedPath (s : string) : bool :=
  forallb (fun c => if oneOf c "!$&'()*+,;=:@[]%" then true
                    else negb (shouldEscape c encodePath))
          (list_ascii_of_string s).

(** [u.EscapedPath()]. *)
Definition EscapedPath (u : URL) : string :=
  let default :=
    if String.eqb (Path u) "*" then "*" else escape (Path u) encodePath in
  if negb (String.eqb (RawPath u) "") && validEncodedPath (RawPath u) then
    match unescape (RawPath u) encodePath with
    | inl p => if String.eqb p (Path u) then RawPath u else default
    | inr _ => default
    end
  else default.

(** [parse(rawurl, viaRequest)] at [viaRequest = false], as [Parse] calls it. *)
Definition parse (rawurl : string) : URL + urlError :=
  if String.eqb rawurl "*" then
    inl {| Scheme := ""; Opaque := ""; User := None; Host := ""; Path := "*";
           RawPath := ""; ForceQuery := false; RawQuery := ""; Fragment := "" |}
  else
    match getscheme rawurl with
    | (_, _, Some e) => inr e
    | (scheme, rest, None) =>
        let scheme := ToLower scheme in
        let '(rest, forceQuery, rawQuery) :=
          if HasSuffixByte rest "?" && (CountByte rest "?" =? 1)%nat
          then (sliceTo (String.length rest - 1) rest, true, "")
          else let '(rest, q) := split rest "?" true in (rest, false, q) in
        let u0 := {| Scheme := scheme; Opaque := ""; User := None; Host := ""; Path := "";
                     RawPath := ""; ForceQuery := forceQuery; RawQuery := rawQuery;
                     Fragment := "" |} in
        let colonFirst :=
          match Index rest ":", Index rest "/" with
          | Some colon, None => true
          | Some colon, Some slash => (colon <? slash)%nat
          | None, _ => false
          end in
        if negb (HasPrefix rest "/") && negb (String.eqb scheme "") then
          (* rootless path after a scheme: opaque *)
          inl {| Scheme := scheme; Opaque := rest; User := None; Host := ""; Path := "";
                 RawPath := ""; ForceQuery := forceQuery; RawQuery := rawQuery;
                 Fragment := "" |}
        else if negb (HasPrefix rest "/") && colonFirst then inr ErrColonInFirstSegment
        else if (negb (String.eqb scheme "") || negb (HasPrefix rest "///"))
                && HasPrefix rest "//" then
          let '(authority, rest) := split (sliceFrom 2 rest) "/" false in
          match parseAuthority authority with
          | inr e => inr e
          | inl (user, host) =>
              setPath {| Scheme := scheme; Opaque := ""; User := user; Host := host;
                         Path := ""; RawPath := ""; ForceQuery := forceQuery;
                         RawQuery := rawQuery; Fragment := "" |} rest
          end
        else setPath u0 rest
    end.

(** [url.Parse(rawurl)]. *)
Definition Parse (rawurl : string) : URL + urlError :=
  let '(u, frag) := split rawurl "#" true in
  match parse u with
  | inr e => inr e
  | inl url =>
      if String.eqb frag "" then inl url
      else
        match unescape frag encodeFragment with
        | inr e => inr e
        | inl f =>
            inl {| Scheme := Scheme url; Opaque := Opaque url; User := User url;
                   Host := Host url; Path := Path url; RawPath := RawPath url;
                   ForceQuery := ForceQuery url; RawQuery := RawQuery url; Fragment := f |}
        end
  end.

(** [ui.String()]. *)
Definition UserinfoString (ui : Userinfo) : string :=
  let s := escape (username ui) encodeUserPassword in
  if passwordSet ui then s ++ ":" ++ escape (password ui) encodeUserPassword else s.

Definition isSome {A} (o : option A) : bool :=
  match o with Some _ => true | None => false end.

(** [u.String()]; [buf] is the buffer written so far. *)
Definition String_ (u : URL) : string :=
  let buf := if negb (String.eqb (Scheme u) "") then Scheme u ++ ":" else "" in
  let buf :=
    if negb (String.eqb (Opaque u) "") then buf ++ Opaque u
    else
      let buf :=
        if negb (String.eqb (Scheme u) "") || negb (String.eqb (Host u) "") || isSome (User u)
        then
          let buf :=
            if negb (String.eqb (Host u) "") || negb (String.eqb (Path u) "") || isSome (User u)
            then buf ++ "//" else buf in
          let buf :=
            match User u with
            | Some ui => buf ++ UserinfoString ui ++ "@"
            | None => buf
            end in
          if negb (String.eqb (Host u) "") then buf ++ escape (Host u) encodeHost else buf
        else buf in
      let path := EscapedPath u in
      let buf :=
        if negb (String.eqb path "") && negb (HasPrefix path "/")
           && negb (String.eqb (Host u) "")
        then buf ++ "/" else buf in
      let buf :=
        if String.eqb buf "" then
          match Index path ":" with
          | Some i => if Contains (sliceTo i path) "/" then buf else buf ++ "./"
          | None => buf
          end
        else buf in
      buf ++ path in
  let buf :=
    if ForceQuery u || negb (String.eqb (RawQuery u) "")
    then buf ++ "?" ++ RawQuery u else buf in
  if negb (String.eqb (Fragment u) "")
  then buf ++ "#" ++ escape (Fragment u) encodeFragment else buf.

(** [resolvePath(base, ref)]: RFC 3986 sections 5.2.2 to 5.2.4. *)
Definition resolvePath (base ref : string) : string :=
  let full :=
    match ref with
    | "" => base
    | String c _ =>
        if negb (Ascii.eqb c "/") then
          (* base[:i+1] + ref, with i = strings.LastIndex(base, "/") *)
          match LastIndex base "/" with
          | Some i => sliceTo (i + 1) base ++ ref
          | None => ref
          end
        else ref
    end in
  if String.eqb full "" then ""
  else
    let src := SplitByte full "/" in
    let dst :=
      fold_left
        (fun dst elem =>
           if String.eqb elem "." then dst
           else if String.eqb elem ".." then removelast dst
           else (dst ++ [elem])%list)
        src [] in
    let last := List.last src "" in
    let dst :=
      if String.eqb last "." || String.eqb last ".." then (dst ++ [""])%list else dst in
    "/" ++ TrimLeftByte (Join dst "/") "/".

Definition withPath (u : URL) (p : string) : URL :=
  match setPath u p with inl u' => u' | inr _ => u end.

(** [u.ResolveReference(ref)]: RFC 3986 section 5.2. *)
Definition ResolveReference (u ref : URL) : URL :=
  let scheme := if String.eqb (Scheme ref) "" then Scheme u else Scheme ref in
  let url := {| Scheme := scheme; Opaque := Opaque ref; User := User ref; Host := Host ref;
                Path := Path ref; RawPath := RawPath ref; ForceQuery := ForceQuery ref;
                RawQuery := RawQuery ref; Fragment := Fragment ref |} in
  if negb (String.eqb (Scheme ref) "") || negb (String.eqb (Host ref) "") || isSome (User ref)
  then
    (* the "absoluteURI" or "net_path" cases *)
    withPath url (resolvePath (EscapedPath ref) "")
  else if negb (String.eqb (Opaque ref) "") then
    {| Scheme := scheme; Opaque := Opaque ref; User := None; Host := ""; Path := "";
       RawPath := RawPath ref; ForceQuery := ForceQuery ref; RawQuery := RawQuery ref;
       Fragment := Fragment ref |}
  else
    let inherit := String.eqb (Path ref) "" && String.eqb (RawQuery ref) "" in
    (* the "abs_path" or "rel_path" cases *)
    withPath
      {| Scheme := scheme; Opaque := Opaque ref; User := User u; Host := Host u;
         Path := Path ref; RawPath := RawPath ref; ForceQuery := ForceQuery ref;
         RawQuery := if inherit then RawQuery u else RawQuery ref;
         Fragment := if inherit && String.eqb (Fragment ref) "" then Fragment u
                     else Fragment ref |}
      (resolvePath (EscapedPath u) (EscapedPath ref)).

End NetURL.

(** ** [joinURL] *)

Module Main.
Import NetURL.

Definition imageListPutImagesPath : string := "/images".

(** [joinURL(u, path)] returns [(string, error)]. *)
Definition joinURL (u path : string) : string * option urlError :=
  match Parse path with
  | inr err => ("", Some err)
  | inl p =>
      match Parse u with
      | inr err => ("", Some err)
      | inl base => (String_ (ResolveReference base p), None)
      end
  end.

(** The two messages [main] exits with. *)
Inductive exitMessage :=
| MsgURLNotSet                      (* "error: imagelist-url needs to be set" *)
| MsgURLParse (err : urlError).     (* "error: failed to parse imagelist url: %v" *)

(** [cli.NewExitError(message, exitCode)]. *)
Inductive exitError := NewExitError (message : exitMessage) (exitCode : Z).

(** [app.Action] up to its main loop; [flag] is the value of
    [--imagelist-url], [None] when [c.IsSet] is false.  [inr url] stands for
    entering the loop, which never returns, with [imageListURL = url]. *)
Definition action (flag : option string) : exitError + string :=
  match flag with
  | None => inl (NewExitError MsgURLNotSet 1)
  | Some u =>
      match joinURL u imageListPutImagesPath with
      | (_, Some err) => inl (NewExitError (MsgURLParse err) 1)
      | (imageListURL, None) => inr imageListURL
      end
  end.

(** Two URL strings are equivalent when they parse to the same URL. *)
Definition equivalentURL (a b : string) : Prop :=
  exists u, Parse a = inl u /\ Parse b = inl u.

End Main.

(** ** Inspection results used as examples *)

Module Examples.
Import Resolver Publisher.

(** A daemon that accepts the connection and answers every inspection
    with [insp]. *)
Definition dockerWith (insp : ImageInspect) : Docker :=
  {| NewEnvClient := None; ImageInspectWithRaw := fun _ => inl insp |}.

Definition pushedAB : ImageInspect :=
  {| RepoTags := ["foo/bar:notpushedyet"; "a/b:v1"; "a/b:latest"];
     RepoDigests := ["a/b@sha1"; "c/d@sha2"] |}.

Definition neverPushed : ImageInspect :=
  {| RepoTags := ["foo/bar:notpushedyet"]; RepoDigests := ["a/b@sha1"] |}.

(** The inspection result of [TestMapRepoDigestsToTags]. *)
Definition testInspect : ImageInspect :=
  {| RepoDigests :=
       ["vaijab/did@sha256:b3bedb83fb69f207d69adffb2e5690b449b658ea2c139240d20f2ef56bcb4c6f";
        "quay.io/vaijab/did@sha256:42c5ace3ac1e133a49d81086993e5817e70c67cdbf808bf8934aac78e3e416f0";
        "quay.io/vaijab/did@sha256:4a967d63c7d5a2da1fd23d5c6733940b2bd8cb1997575d148d5863fd4f460844";
        "quay.io/vaijab/did@sha256:4e2aa0bc2292b0366dbcde7685c26ce81cfda708bab16d32316704da5d9424ee"];
     RepoTags :=
       ["foo/bar:notpushedyet"; "vaijab/did:v1"; "quay.io/vaijab/did:v1";
        "quay.io/vaijab/did:v1.1"; "quay.io/vaijab/did:latest"; "vaijab/did:latest"] |}.

(** Two repositories whose names share a string prefix. *)
Definition siblingRepos : ImageInspect :=
  {| RepoTags := ["a/b:v1"; "a/bc:v2"];
     RepoDigests := ["a/b@sha1"; "a/bc@sha2"] |}.


(** A digest listed under a name that itself ends in a tag-like suffix. *)
Definition stackedSuffix : ImageInspect :=
  {| RepoTags := ["a:b:c"]; RepoDigests := ["a:b@sha1"] |}.

Definition someImage : image :=
  {| ID := "a/b@sha1"; Name := "a/b"; Tags := ["v1"; "latest"] |}.

End Examples.

(** * Properties *)

(** ** The tag pattern *)

Module TagRegexpFacts.
Import GoStrings RegexpSyntax TagRegexp.

#[local] Arguments matchHere : simpl never.

Lemma HasPrefix_spec s pre :
  HasPrefix s pre = true <-> exists rest, s = pre ++ rest.
Proof.
  unfold HasPrefix. revert s. induction pre as [|c pre IH]; intros s; simpl.
  - split; [intros _; exists s; reflexivity | intros _; by destruct s].
  - destruct s as [|d s]; simpl.
    + split; [discriminate | intros [rest H]; discriminate].
    + destruct (Ascii.ascii_dec c d) as [->|Hne].
      * rewrite IH. split; intros [rest H]; exists rest; simpl in *; congruence.
      * split; [done | intros [rest H]; simpl in H; congruence].
Qed.

Lemma app_assoc_s (a b c : string) : (a ++ b) ++ c = a ++ b ++ c.
Proof. induction a as [|x a IH]; simpl; congruence. Qed.

Lemma app_nil_r_s (a : string) : a ++ "" = a.
Proof. induction a as [|x a IH]; simpl; congruence. Qed.

Lemma isWord_isTagChar c : isWord c = true -> isTagChar c = true.
Proof. unfold isTagChar. intros ->. reflexivity. Qed.

Lemma colon_not_tagChar : isTagChar ":" = false.
Proof. reflexivity. Qed.

(** The greedy repetition splits its input, and consumes all of a short
    run of tag characters. *)
Lemma repTagChar_split n s tok rest :
  repTagChar n s = (tok, rest) ->
  s = tok ++ rest /\ allTagChars tok = true /\ String.length tok <= n.
Proof.
  revert s tok rest. induction n as [|n IH]; intros s tok rest.
  - destruct s; simpl; intros [= <- <-]; simpl; auto.
  - destruct s as [|c s]; simpl.
    + intros [= <- <-]; simpl; auto with arith.
    + destruct (isTagChar c) eqn:Hc.
      * destruct (repTagChar n s) as [tok' rest'] eqn:Hr.
        intros [= <- <-]. destruct (IH _ _ _ Hr) as (-> & Hall & Hlen).
        simpl. rewrite Hc, Hall. repeat split; auto with arith.
      * intros [= <- <-]; simpl; auto with arith.
Qed.

Lemma repTagChar_all n t :
  allTagChars t = true -> String.length t <= n -> repTagChar n t = (t, "").
Proof.
  revert t. induction n as [|n IH]; intros [|c t]; simpl; try done.
  - lia.
  - intros [-> Hall]%andb_prop Hlen. rewrite IH; [done | done | lia].
Qed.

Lemma matchHere_Some s g :
  matchHere s = Some g <-> s = ":" ++ g /\ isTag g = true.
Proof.
  unfold matchHere. split.
  - destruct s as [|c0 [|c s']]; try discriminate.
    destruct (Ascii.eqb_spec c0 ":") as [->|Hne]; [|discriminate].
    destruct (isWord c) eqn:Hw; [|discriminate]. cbn [andb].
    destruct (repTagChar 127 s') as [tok rest] eqn:Hr.
    destruct (String.eqb_spec rest "") as [->|]; [|discriminate].
    intros [= <-]. apply repTagChar_split in Hr as (-> & Hall & Hlen).
    rewrite app_nil_r_s. split; [reflexivity|].
    cbn [isTag]. rewrite Hw, Hall. by apply Nat.leb_le.
  - intros [-> Ht]. destruct g as [|c t]; [discriminate|].
    cbn [isTag] in Ht.
    apply andb_prop in Ht as [[Hw Hall]%andb_prop Hlen%Nat.leb_le].
    cbn [append]. rewrite Hw, repTagChar_all by done. reflexivity.
Qed.

Lemma allTagChars_app a b :
  allTagChars (a ++ b) = allTagChars a && allTagChars b.
Proof. induction a as [|c a IH]; simpl; [done|]. by rewrite IH, andb_assoc. Qed.

(** A tag token holds no colon. *)
Lemma isTag_no_colon a b : isTag (a ++ ":" ++ b) = false.
Proof.
  destruct a as [|c a]; [reflexivity|]. simpl.
  rewrite allTagChars_app. simpl.
  by rewrite andb_false_r, andb_false_r.
Qed.

Lemma find_eq s :
  find s =
  match matchHere s with
  | Some g => Some ("", s, g)
  | None =>
      match s with
      | "" => None
      | String c s' =>
          match find s' with
          | Some (before, whole, g) => Some (String c before, whole, g)
          | None => None
          end
      end
  end.
Proof. destruct s; reflexivity. Qed.

(** What [find] returns decomposes the text. *)
Lemma find_Some s before whole g :
  find s = Some (before, whole, g) ->
  s = before ++ whole /\ whole = ":" ++ g /\ isTag g = true.
Proof.
  revert before. induction s as [|c s IH]; intros before; rewrite find_eq.
  - unfold matchHere. discriminate.
  - destruct (matchHere (String c s)) as [g'|] eqn:Hm.
    + intros [= <- <- <-]. apply matchHere_Some in Hm as [-> Ht]. done.
    + destruct (find s) as [[[b w] g']|] eqn:Hf; [|discriminate].
      intros [= <- <- <-]. destruct (IH _ eq_refl) as (-> & -> & Ht). done.
Qed.

(** The one match of a text that ends in a tag suffix. *)
Lemma find_suffix bare tag :
  isTag tag = true -> find (bare ++ ":" ++ tag) = Some (bare, ":" ++ tag, tag).
Proof.
  intros Ht. induction bare as [|c bare IH]; rewrite find_eq.
  - change ("" ++ ":" ++ tag) with (":" ++ tag).
    assert (Hm : matchHere (":" ++ tag) = Some tag) by (by apply matchHere_Some).
    by rewrite Hm.
  - change (String c bare ++ ":" ++ tag) with (String c (bare ++ ":" ++ tag)).
    destruct (matchHere (String c (bare ++ ":" ++ tag))) as [g|] eqn:Hm.
    + apply matchHere_Some in Hm as [Heq Hg]. injection Heq as -> <-.
      change (bare ++ String ":" tag) with (bare ++ ":" ++ tag) in Hg.
      by rewrite isTag_no_colon in Hg.
    + by rewrite IH.
Qed.

(** Inversion of the matching relation, one lemma per construct. *)
Lemma matches_lit_inv c w rest : matches (Lit c) w rest -> w = String c "".
Proof. by inversion 1. Qed.

Lemma matches_class_inv p w rest :
  matches (Class p) w rest -> exists c, w = String c "" /\ p c = true.
Proof. inversion 1; subst; eauto. Qed.

Lemma matches_seq_inv r1 r2 w rest :
  matches (Seq r1 r2) w rest ->
  exists w1 w2, w = w1 ++ w2 /\ matches r1 w1 (w2 ++ rest) /\ matches r2 w2 rest.
Proof. inversion 1; subst; eauto. Qed.

Lemma matches_group_inv r w rest : matches (Group r) w rest -> matches r w rest.
Proof. by inversion 1. Qed.

Lemma matches_end_inv w rest : matches EndText w rest -> w = "" /\ rest = "".
Proof. by inversion 1. Qed.

Lemma matches_rep_inv r lo hi w rest :
  matches (Rep r lo hi) w rest ->
  (lo = 0 /\ w = "") \/
  exists hi' w1 w2, hi = S hi' /\ w = w1 ++ w2 /\
    matches r w1 (w2 ++ rest) /\ matches (Rep r (Nat.pred lo) hi') w2 rest.
Proof. inversion 1; subst; [by left | right; eauto 10]. Qed.

(** The repetition of the class, read off the matching relation. *)
Lemma rep_class_inv hi w rest :
  matches (Rep (Class isTagChar) 0 hi) w rest ->
  allTagChars w = true /\ String.length w <= hi.
Proof.
  revert w. induction hi as [|hi IH]; intros w H;
    apply matches_rep_inv in H as [[_ ->]|(hi' & w1 & w2 & Hhi & -> & H1 & H2)];
    simpl; auto with arith; [discriminate|].
  injection Hhi as <-.
  apply matches_class_inv in H1 as (c & -> & Hc). apply IH in H2 as [Hall Hlen].
  simpl. split; [by apply andb_true_intro | lia].
Qed.

Lemma rep_class_intro hi w rest :
  allTagChars w = true -> String.length w <= hi ->
  matches (Rep (Class isTagChar) 0 hi) w rest.
Proof.
  revert hi. induction w as [|c w IH]; intros hi Hall Hlen.
  - destruct hi; constructor.
  - simpl in Hall, Hlen. apply andb_prop in Hall as [Hc Hall].
    destruct hi as [|hi]; [lia|].
    apply (m_rep_more (Class isTagChar) 0 hi (String c "") w rest).
    + by constructor.
    + apply IH; [done | lia].
Qed.

(** What the pattern, as written, matches: a colon and a tag token, at the
    end of the text. *)
Lemma tagPattern_matches w rest :
  matches tagPattern w rest <->
  rest = "" /\ exists t, w = ":" ++ t /\ isTag t = true.
Proof.
  unfold tagPattern. split.
  - intros (w1 & w2 & -> & ->%matches_lit_inv & H2)%matches_seq_inv.
    apply matches_seq_inv in H2 as (w3 & w4 & -> & H3 & [-> ->]%matches_end_inv).
    apply matches_group_inv, matches_seq_inv in H3 as (w5 & w6 & -> & H5 & H6).
    apply matches_class_inv in H5 as (c & -> & Hc).
    apply rep_class_inv in H6 as [Hall Hlen].
    split; [done|]. exists (String c w6). rewrite app_nil_r_s. split; [done|].
    cbn [isTag]. apply andb_true_intro. split; [by apply andb_true_intro|].
    by apply Nat.leb_le.
  - intros (-> & t & -> & Ht). destruct t as [|c t]; [done|].
    cbn [isTag] in Ht. apply andb_prop in Ht as [[Hw Hall]%andb_prop Hlen%Nat.leb_le].
    apply (m_seq _ _ ":" (String c t) "").
    { constructor. }
    rewrite <- (app_nil_r_s (String c t)).
    apply (m_seq _ _ (String c t) "" ""); [|constructor].
    constructor. apply (m_seq _ _ (String c "") t ("" ++ "")).
    + by constructor.
    + by apply rep_class_intro.
Qed.

(** [find] searches for the pattern as written. *)
Lemma MatchString_pattern s :
  MatchString s = true <->
  exists before w rest, s = before ++ w ++ rest /\ matches tagPattern w rest.
Proof.
  unfold MatchString. split.
  - destruct (find s) as [[[b w] g]|] eqn:Hf; [|done].
    intros _. apply find_Some in Hf as (-> & -> & Ht).
    exists b, (":" ++ g), "". rewrite app_nil_r_s. split; [done|].
    apply tagPattern_matches. eauto.
  - intros (b & w & rest & -> & (-> & t & -> & Ht)%tagPattern_matches).
    rewrite app_nil_r_s. by rewrite find_suffix.
Qed.

(** [MatchString] decides the spec's reading of the pattern. *)
Lemma MatchString_spec s : MatchString s = true <-> hasTagSuffix s.
Proof.
  unfold MatchString, hasTagSuffix. split.
  - destruct (find s) as [[[b w] g]|] eqn:Hf; [|done].
    intros _. apply find_Some in Hf as (-> & -> & Ht). eauto.
  - intros (b & t & -> & Ht). by rewrite find_suffix.
Qed.

Lemma MatchString_false s : MatchString s = false <-> ~ hasTagSuffix s.
Proof.
  rewrite <- MatchString_spec. destruct (MatchString s); split; try done.
Qed.

(** Stripping removes exactly the suffix. *)
Lemma ReplaceAllString_suffix bare tag :
  isTag tag = true -> ReplaceAllString (bare ++ ":" ++ tag) "" = bare.
Proof.
  intros Ht. unfold ReplaceAllString. rewrite find_suffix by done.
  apply app_nil_r_s.
Qed.

Lemma ReplaceAllString_no_match s :
  MatchString s = false -> ReplaceAllString s "" = s.
Proof. unfold MatchString, ReplaceAllString. by destruct (find s). Qed.

Lemma FindStringSubmatch_suffix bare tag :
  isTag tag = true -> FindStringSubmatch (bare ++ ":" ++ tag) = [":" ++ tag; tag].
Proof. intros Ht. unfold FindStringSubmatch. by rewrite find_suffix. Qed.

Lemma hasColon_app a b : hasColon (a ++ b) = hasColon a || hasColon b.
Proof. induction a as [|c a IH]; simpl; [done|]. by rewrite IH, orb_assoc. Qed.

Lemma allTagChars_hasColon t : allTagChars t = true -> hasColon t = false.
Proof.
  induction t as [|c t IH]; simpl; [done|].
  intros [Hc Hall]%andb_prop. rewrite IH by done.
  destruct (Ascii.eqb_spec c ":") as [->|]; [discriminate | done].
Qed.

Lemma isTag_hasColon t : isTag t = true -> hasColon t = false.
Proof.
  destruct t as [|c t]; [done|]. cbn [isTag].
  intros [[Hw Hall]%andb_prop _]%andb_prop.
  apply (allTagChars_hasColon (String c t)). simpl.
  by rewrite (isWord_isTagChar _ Hw), Hall.
Qed.

Lemma isTag_length t : isTag t = true -> 1 <= String.length t <= 128.
Proof.
  destruct t as [|c t]; [done|]. cbn [isTag].
  intros [_ Hlen%Nat.leb_le]%andb_prop. simpl. lia.
Qed.

(** Splitting a text at its last colon is unambiguous. *)
Lemma last_colon_unique a t b t' :
  a ++ ":" ++ t = b ++ ":" ++ t' -> hasColon t = false -> hasColon t' = false ->
  a = b /\ t = t'.
Proof.
  revert b. induction a as [|c a IH]; intros [|c' b] Heq Ht Ht'; simpl in Heq.
  - by injection Heq.
  - injection Heq as <- ->. rewrite hasColon_app in Ht. simpl in Ht.
    by rewrite orb_true_r in Ht.
  - injection Heq as -> <-. rewrite hasColon_app in Ht'. simpl in Ht'.
    by rewrite orb_true_r in Ht'.
  - injection Heq as <- Heq. destruct (IH _ Heq Ht Ht') as [-> ->]. done.
Qed.




End TagRegexpFacts.

(** ** The Digest Resolver *)

Module ResolverFacts.
Import GoStrings TagRegexp TagRegexpFacts Resolver.

Lemma collectTags_flat_map name repoTags :
  collectTags name repoTags = flat_map (entryTag name) repoTags.
Proof.
  unfold collectTags.
  enough (H : forall acc,
    fold_left
      (fun tags entry =>
         if HasPrefix entry name
         then match FindStringSubmatch entry with
              | [_; t] => (tags ++ [t])%list
              | _ => tags
              end
         else tags) repoTags acc = (acc ++ flat_map (entryTag name) repoTags)%list)
    by apply H.
  induction repoTags as [|e l IH]; intros acc; simpl.
  - by rewrite List.app_nil_r.
  - rewrite IH. unfold entryTag at 2.
    destruct (HasPrefix e name); [|done].
    destruct (FindStringSubmatch e) as [|w [|t [|]]]; try done.
    by rewrite <- List.app_assoc.
Qed.

Lemma entryTag_In name entry t :
  In t (entryTag name entry) <->
  HasPrefix entry name = true /\ exists before, entry = before ++ ":" ++ t /\ isTag t = true.
Proof.
  unfold entryTag, FindStringSubmatch. split.
  - destruct (HasPrefix entry name); [|done].
    destruct (find entry) as [[[b w] g]|] eqn:Hf; [|done].
    intros [<-|[]]. apply find_Some in Hf as (-> & -> & Ht). eauto.
  - intros [-> (b & -> & Ht)]. rewrite find_suffix by done. by left.
Qed.

(** The tags collected are the tag suffixes of the repo-tag entries that
    start with [name]. *)
Lemma collectTags_In name repoTags t :
  In t (collectTags name repoTags) <->
  exists entry, In entry repoTags /\ HasPrefix entry name = true /\
                exists before, entry = before ++ ":" ++ t /\ isTag t = true.
Proof.
  rewrite collectTags_flat_map, in_flat_map.
  split; intros (e & He & H); exists e; (split; [done|]); by apply entryTag_In.
Qed.

(** The second loop: the keys are the entries that pass the test, each
    bound to the one [tags] value. *)
Lemma fold_insert_lookup (p : string -> bool) (tags : list string) l
      (m0 : gmap string (list string)) d :
  fold_left (fun m entry => if p entry then <[entry := tags]> m else m) l m0 !! d =
  if existsb (fun e => String.eqb e d && p e) l then Some tags else m0 !! d.
Proof.
  revert m0. induction l as [|e l IH]; intros m0; simpl; [done|].
  rewrite IH. destruct (existsb _ l); [by rewrite orb_true_r|].
  rewrite orb_false_r. destruct (String.eqb_spec e d) as [->|Hne]; simpl.
  - destruct (p d); [by rewrite lookup_insert_eq | done].
  - destruct (p e); [by rewrite lookup_insert_ne | done].
Qed.

Lemma existsb_eqb_In (p : string -> bool) l d :
  existsb (fun e => String.eqb e d && p e) l = true <-> In d l /\ p d = true.
Proof.
  rewrite existsb_exists. split.
  - intros (e & He & [->%String.eqb_eq Hp]%andb_prop). done.
  - intros [Hin Hp]. exists d. by rewrite String.eqb_refl, Hp.
Qed.

Lemma hasTagSuffix_nonempty name : hasTagSuffix name -> String.eqb name "" = false.
Proof.
  intros (b & t & -> & _). by destruct b.
Qed.

(** Lookup in the map built for a nonempty [name]. *)
Lemma mapRepoDigestsToTags_lookup name insp d :
  String.eqb name "" = false ->
  let bare := ReplaceAllString name "" in
  mapRepoDigestsToTags name insp !! d =
  if existsb (fun e => String.eqb e d && HasPrefix e bare) (RepoDigests insp)
  then Some (collectTags bare (RepoTags insp)) else None.
Proof.
  intros Hne. unfold mapRepoDigestsToTags. rewrite Hne. cbv zeta.
  by rewrite (fold_insert_lookup (fun e => HasPrefix e (ReplaceAllString name ""))).
Qed.

Lemma range_loop name (l : list (string * list string)) acc :
  fold_left
    (fun images '(k, v) =>
       (images ++ [{| ID := k; Name := ReplaceAllString name ""; Tags := v |}])%list)
    l acc = (acc ++ map (record name) l)%list.
Proof.
  revert acc. induction l as [|[k v] l IH]; intros acc; simpl.
  - by rewrite List.app_nil_r.
  - by rewrite IH, <- List.app_assoc.
Qed.

(** Every way through [getRepoDigests], by its result. *)
Lemma getRepoDigests_cases docker order name :
  match NewEnvClient docker with
  | Some e => getRepoDigests docker order name = ([], Some (ErrClient e))
  | None =>
      if MatchString name then
        match ImageInspectWithRaw docker name with
        | inr e => getRepoDigests docker order name = ([], Some (ErrInspect e))
        | inl insp =>
            let m := mapRepoDigestsToTags name insp in
            (m = ∅ /\ getRepoDigests docker order name = ([], Some (ErrNoDigests name)))
            \/ (m <> ∅ /\
                getRepoDigests docker order name = (map (record name) (order m), None))
        end
      else getRepoDigests docker order name = ([], Some (ErrNoTag name))
  end.
Proof.
  unfold getRepoDigests. destruct (NewEnvClient docker); [done|].
  destruct (MatchString name); [|done]. cbn [negb].
  destruct (ImageInspectWithRaw docker name) as [insp|e]; [|done].
  cbv zeta. destruct (Nat.eqb_spec (size (mapRepoDigestsToTags name insp)) 0) as [H0|H0].
  - left. split; [by apply map_size_empty_iff | done].
  - right. split; [by rewrite <- map_size_empty_iff |].
    by rewrite range_loop.
Qed.

(** On success, the records are the entries of the map. *)
Lemma getRepoDigests_success docker order name imgs :
  getRepoDigests docker order name = (imgs, None) ->
  hasTagSuffix name /\
  exists insp, ImageInspectWithRaw docker name = inl insp /\
    forall img, In img imgs <->
      exists k v, mapRepoDigestsToTags name insp !! k = Some v /\ img = record name (k, v).
Proof.
  intros Hres. pose proof (getRepoDigests_cases docker order name) as Hc.
  destruct (NewEnvClient docker); [congruence|].
  destruct (MatchString name) eqn:Hm; [|congruence].
  split; [by apply MatchString_spec|].
  destruct (ImageInspectWithRaw docker name) as [insp|e]; [|congruence].
  exists insp. split; [done|].
  destruct Hc as [[_ Hc]|[_ Hc]]; [congruence|].
  rewrite Hc in Hres. injection Hres as <-.
  intros img. rewrite in_map_iff. split.
  - intros ([k v] & <- & Hin). exists k, v. split; [|done].
    apply elem_of_map_to_list. rewrite <- (range_perm order).
    by apply list_elem_of_In.
  - intros (k & v & Hl & ->). exists (k, v). split; [done|].
    apply list_elem_of_In. rewrite (range_perm order).
    by apply elem_of_map_to_list.
Qed.

End ResolverFacts.

(** ** The Publisher *)

Module PublisherFacts.
Import Resolver Publisher.

Lemma puts_app a b : puts (a ++ b)%list = puts a + puts b.
Proof. unfold puts. by rewrite List.filter_app, List.length_app. Qed.

Lemma successLogged_app a b :
  successLogged (a ++ b)%list = successLogged a || successLogged b.
Proof. apply existsb_app. Qed.

Lemma puts_drains ds : puts (map Drain ds) = 0.
Proof. induction ds; [done|]. unfold puts in *. simpl. done. Qed.

Lemma successLogged_drains ds : successLogged (map Drain ds) = false.
Proof. induction ds; [done|]. unfold successLogged in *. simpl. done. Qed.

Section Loop.
Variables (name url : string) (i : image) (world : nat -> outcome).

(** More fuel does not change a result. *)
Lemma loop_fuel_S fuel attempt defers tr r :
  loop name url i world fuel attempt defers tr = Some r ->
  loop name url i world (S fuel) attempt defers tr = Some r.
Proof.
  revert attempt defers tr. induction fuel as [|fuel IH]; intros attempt defers tr.
  - discriminate.
  - intros H. cbn [loop] in H |- *.
    destruct (attempt =? 30)%nat; [done|].
    destruct (world (attempt + 1)) as [e|e|code]; [done| by apply IH |].
    destruct (code =? http_StatusOK)%Z; [done|].
    destruct (code =? http_StatusInternalServerError)%Z; [by apply IH | done].
Qed.

Lemma loop_fuel_le fuel fuel' attempt defers tr r :
  fuel <= fuel' ->
  loop name url i world fuel attempt defers tr = Some r ->
  loop name url i world fuel' attempt defers tr = Some r.
Proof. induction 1 as [|m Hle IH]; [done|]. intros Hr. by apply loop_fuel_S, IH. Qed.

(** From any count up to 30 the loop returns within [31 - attempt]
    passes, whatever the passes meet. *)
Lemma loop_returns fuel attempt defers tr :
  attempt <= 30 -> 31 - attempt <= fuel ->
  exists r, loop name url i world fuel attempt defers tr = Some r /\ attempts r <= 30.
Proof.
  revert attempt defers tr. induction fuel as [|fuel IH]; intros attempt defers tr Ha Hf.
  - lia.
  - cbn [loop]. destruct (Nat.eqb_spec attempt 30) as [->|Hne].
    + eexists. split; [reflexivity|]. simpl. lia.
    + destruct (world (attempt + 1)) as [e|e|code].
      * eexists. split; [reflexivity|]. simpl. lia.
      * apply IH; lia.
      * destruct (code =? http_StatusOK)%Z.
        { eexists. split; [reflexivity|]. simpl. lia. }
        destruct (code =? http_StatusInternalServerError)%Z.
        { apply IH; lia. }
        eexists. split; [reflexivity|]. simpl. lia.
Qed.

(** When every remaining pass meets a transient failure, the loop runs
    to the cap. *)
Lemma loop_transient fuel attempt defers tr :
  (forall n, attempt < n <= 30 -> transient (world n) = true) ->
  attempt <= 30 -> 31 - attempt <= fuel ->
  exists r ev ds,
    loop name url i world fuel attempt defers tr = Some r /\
    attempts r = 30 /\ final r = GivenUp /\
    trace r = (tr ++ ev ++ Log (LogMaxRetries name) :: map Drain ds)%list /\
    puts ev = 30 - attempt /\ successLogged ev = false.
Proof.
  revert attempt defers tr. induction fuel as [|fuel IH];
    intros attempt defers tr Hw Ha Hf.
  - lia.
  - cbn [loop]. destruct (Nat.eqb_spec attempt 30) as [->|Hne].
    + eexists _, [], defers. split; [reflexivity|]. simpl.
      rewrite <- List.app_assoc. done.
    + assert (Ht : transient (world (attempt + 1)) = true) by (apply Hw; lia).
      set (sleep := if negb (attempt =? 0)%nat then [Sleep3s] else []).
      assert (Htr : (if negb (attempt =? 0)%nat then (tr ++ [Sleep3s])%list else tr)
                    = (tr ++ sleep)%list).
      { unfold sleep. destruct (negb (attempt =? 0)%nat); [done | by rewrite List.app_nil_r]. }
      assert (Hs : puts sleep = 0 /\ successLogged sleep = false).
      { unfold sleep. by destruct (negb (attempt =? 0)%nat). }
      destruct Hs as [Hs1 Hs2]. rewrite Htr.
      destruct (world (attempt + 1)) as [e|e|code]; [done| |].
      * destruct (IH (attempt + 1) defers
                    ((tr ++ sleep) ++ [Put url i; Log (LogPutError (Name i) e)])%list)
          as (r & ev & ds & Hr & H1 & H2 & H3 & H4 & H5);
          [intros n Hn; apply Hw; lia | lia | lia |].
        exists r, (sleep ++ [Put url i; Log (LogPutError (Name i) e)] ++ ev)%list, ds.
        split; [done|]. split; [done|]. split; [done|].
        split; [rewrite H3; by rewrite <- !List.app_assoc|].
        rewrite !puts_app, !successLogged_app, Hs1, Hs2, H4, H5.
        split; [|done]. change (puts [Put url i; Log (LogPutError (Name i) e)]) with 1. lia.
      * cbn [transient] in Ht. apply Z.eqb_eq in Ht. rewrite Ht.
        change (http_StatusInternalServerError =? http_StatusOK)%Z with false.
        rewrite Z.eqb_refl.
        destruct (IH (attempt + 1) (attempt + 1 :: defers)
                    (((tr ++ sleep) ++ [Put url i])
                       ++ [Log (LogStatus500 name http_StatusInternalServerError)])%list)
          as (r & ev & ds & Hr & H1 & H2 & H3 & H4 & H5);
          [intros n Hn; apply Hw; lia | lia | lia |].
        exists r, (sleep ++ [Put url i; Log (LogStatus500 name http_StatusInternalServerError)]
                     ++ ev)%list, ds.
        split; [done|]. split; [done|]. split; [done|].
        split; [rewrite H3; by rewrite <- !List.app_assoc|].
        rewrite !puts_app, !successLogged_app, Hs1, Hs2, H4, H5.
        split; [|done].
        change (puts [Put url i; Log (LogStatus500 name http_StatusInternalServerError)])
          with 1. lia.
Qed.
End Loop.

End PublisherFacts.

(** * The claims *)

Import GoStrings TagRegexp TagRegexpFacts Resolver ResolverFacts.
Import Publisher PublisherFacts EventLoop NetURL Main Examples.

(** ** URL joining *)

(** C1, as stated, fails: [joinURL "http://host/base" "/images"] does not
    return a URL equivalent to ["http://host/base/images"]. *)
Lemma C1_joinURL_not_under_base :
  ~ exists s, joinURL "http://host/base" "/images" = (s, None) /\
              equivalentURL s "http://host/base/images".
Proof.
  intros (s & Hj & u & H1 & H2).
  vm_compute in Hj. injection Hj as <-.
  vm_compute in H1, H2. congruence.
Qed.

(** C1, amended: [joinURL "http://host/base" "/images"] succeeds and returns
    ["http://host/images"]: both strings parse, the result is the sub-path
    resolved as a URL reference against the base, and it is not the
    concatenation of the two strings. *)
Theorem C1_joinURL_replaces_base_path :
  joinURL "http://host/base" "/images" = ("http://host/images", None) /\
  (exists base p,
     Parse "http://host/base" = inl base /\ Parse "/images" = inl p /\
     String_ (ResolveReference base p) = "http://host/images") /\
  "http://host/images" <> "http://host/base" ++ "/images".
Proof.
  split; [vm_compute; reflexivity|]. split; [|discriminate].
  eexists _, _. split; [vm_compute; reflexivity|].
  split; [vm_compute; reflexivity|]. vm_compute. reflexivity.
Qed.

(** ** Publishing one record *)

(** C2: whatever the attempts meet, the publish loop of one record returns
    (31 passes are always enough, and more fuel changes nothing); and when
    each of the attempts 1 to 30 meets a transient failure, [httpPut] is
    called exactly 30 times, the counter ends at 30, the last line logged is
    "max retries reached", the goroutine gives up, and no "submitted" line is
    ever logged. *)
Theorem C2_publish_retry_bound (name url : string) (i : image) (world : nat -> outcome) :
  (exists r, forall fuel, 31 <= fuel -> publish name url i world fuel = Some r) /\
  ((forall n, 1 <= n <= 30 -> transient (world n) = true) ->
   exists r ev ds,
     publish name url i world 31 = Some r /\
     attempts r = 30 /\ puts (trace r) = 30 /\ final r = GivenUp /\
     trace r = (ev ++ Log (LogMaxRetries name) :: map Drain ds)%list /\
     successLogged (trace r) = false).
Proof.
  split.
  - destruct (loop_returns name url i world 31 0 [] []) as (r & Hr & _); [lia | lia |].
    exists r. intros fuel Hf. unfold publish. by apply (loop_fuel_le _ _ _ _ 31).
  - intros Hw.
    destruct (loop_transient name url i world 31 0 [] []) as
      (r & ev & ds & Hr & H1 & H2 & H3 & H4 & H5); [intros n Hn; apply Hw; lia | lia | lia |].
    exists r, ev, ds. cbn [app] in H3.
    split; [done|]. split; [done|]. split; [|split; [done|split; [done|]]].
    + rewrite H3, puts_app, H4. change (Log (LogMaxRetries name) :: map Drain ds)
        with ([Log (LogMaxRetries name)] ++ map Drain ds)%list.
      rewrite puts_app, puts_drains. change (puts [Log (LogMaxRetries name)]) with 0. lia.
    + rewrite H3, successLogged_app, H5.
      change (Log (LogMaxRetries name) :: map Drain ds)
        with ([Log (LogMaxRetries name)] ++ map Drain ds)%list.
      by rewrite successLogged_app, successLogged_drains.
Qed.

(** C2 at a world where every attempt is refused by the transport. *)
Lemma C2_publish_retry_bound_witness :
  exists r ev ds,
    publish "a/b:v1" "http://host/images" someImage (fun _ => TransportError "refused") 31
      = Some r /\
    attempts r = 30 /\ puts (trace r) = 30 /\ final r = GivenUp /\
    trace r = (ev ++ Log (LogMaxRetries "a/b:v1") :: map Drain ds)%list /\
    successLogged (trace r) = false.
Proof.
  apply (proj2 (C2_publish_retry_bound "a/b:v1" "http://host/images" someImage
                  (fun _ => TransportError "refused"))).
  intros n Hn. reflexivity.
Defined.

(** C4: when the first attempt gets a response whose status is neither 200
    nor 500, the loop returns after that one attempt: one [httpPut], the
    counter at 1, the "bad request" line, no sleep and no retry. *)
Theorem C4_publish_short_circuit (name url : string) (i : image)
        (world : nat -> outcome) (code : Z) (fuel : nat) :
  world 1 = Response code -> code <> 200%Z -> code <> 500%Z -> 1 <= fuel ->
  publish name url i world fuel =
    Some {| attempts := 1; final := GivenUp;
            trace := [Put url i; Log (LogBadRequest name code); Drain 1] |} /\
  puts [Put url i; Log (LogBadRequest name code); Drain 1] = 1.
Proof.
  intros Hw H200 H500 Hf. split; [|reflexivity].
  destruct fuel as [|fuel]; [lia|].
  unfold publish. cbn [loop Nat.eqb negb Nat.add]. rewrite Hw.
  unfold http_StatusOK, http_StatusInternalServerError.
  destruct (Z.eqb_spec code 200); [done|].
  destruct (Z.eqb_spec code 500); [done|].
  reflexivity.
Qed.

(** C4 at a catalog that answers 404. *)
Lemma C4_publish_short_circuit_witness :
  publish "a/b:v1" "http://host/images" someImage (fun _ => Response 404) 31 =
    Some {| attempts := 1; final := GivenUp;
            trace := [Put "http://host/images" someImage;
                      Log (LogBadRequest "a/b:v1" 404); Drain 1] |} /\
  puts [Put "http://host/images" someImage; Log (LogBadRequest "a/b:v1" 404); Drain 1] = 1.
Proof.
  apply (C4_publish_short_circuit "a/b:v1" "http://host/images" someImage
           (fun _ => Response 404) 404 31); [reflexivity | lia | lia | lia].
Defined.

(** ** Resolving an image name *)

(** C3: for a name [bare ++ ":" ++ tag], every repo-digest entry that starts
    with [bare] is bound to one and the same list, and no other key is bound;
    that list holds exactly the tag suffixes of the repo-tag entries that
    start with [bare].  With repo-tags foo/bar:notpushedyet, a/b:v1,
    a/b:latest and repo-digests a/b@sha1, c/d@sha2, resolving a/b:v1 gives
    the single record (a/b@sha1, a/b, [v1; latest]), in every iteration
    order. *)
Theorem C3_matching_digests_share_tags :
  (forall bare tag insp,
     isTag tag = true ->
     let m := mapRepoDigestsToTags (bare ++ ":" ++ tag) insp in
     let tags := flat_map (entryTag bare) (RepoTags insp) in
     (forall d, In d (RepoDigests insp) -> HasPrefix d bare = true -> m !! d = Some tags) /\
     (forall d, ~ (In d (RepoDigests insp) /\ HasPrefix d bare = true) -> m !! d = None) /\
     (forall t, In t tags <->
        exists entry before, In entry (RepoTags insp) /\ HasPrefix entry bare = true /\
                             entry = before ++ ":" ++ t /\ isTag t = true)) /\
  (forall order,
     getRepoDigests (dockerWith pushedAB) order "a/b:v1" =
       ([{| Resolver.ID := "a/b@sha1"; Name := "a/b"; Tags := ["v1"; "latest"] |}], None)).
Proof.
  split.
  - intros bare tag insp Ht m tags.
    assert (Hl : forall d, m !! d =
              if existsb (fun e => String.eqb e d && HasPrefix e bare) (RepoDigests insp)
              then Some tags else None).
    { intros d. unfold m, tags.
      rewrite mapRepoDigestsToTags_lookup
        by (apply hasTagSuffix_nonempty; by exists bare, tag).
      by rewrite ReplaceAllString_suffix, collectTags_flat_map. }
    split; [|split].
    + intros d Hin Hp. rewrite Hl.
      by rewrite (proj2 (existsb_eqb_In (fun e => HasPrefix e bare) _ d)).
    + intros d Hno. rewrite Hl.
      destruct (existsb _ _) eqn:He; [|done].
      by apply (existsb_eqb_In (fun e => HasPrefix e bare)) in He.
    + intros t. unfold tags. rewrite <- collectTags_flat_map, collectTags_In.
      split.
      * intros (e & He & Hp & b & -> & Ht'). by exists (b ++ ":" ++ t), b.
      * intros (e & b & He & Hp & -> & Ht'). exists (b ++ ":" ++ t). eauto.
  - intros order.
    pose proof (getRepoDigests_cases (dockerWith pushedAB) order "a/b:v1") as Hc.
    cbn [dockerWith NewEnvClient ImageInspectWithRaw] in Hc.
    change (MatchString "a/b:v1") with true in Hc. cbv iota zeta in Hc.
    assert (Hm : mapRepoDigestsToTags "a/b:v1" pushedAB
                 = {[ "a/b@sha1" := ["v1"; "latest"] ]}) by (vm_compute; reflexivity).
    rewrite Hm in Hc. destruct Hc as [[He _]|[_ Hc]].
    + by apply (map_non_empty_singleton (M:=gmap string)) in He.
    + rewrite Hc. f_equal.
      assert (Hp := range_perm order ({[ "a/b@sha1" := ["v1"; "latest"] ]})).
      rewrite map_to_list_singleton in Hp.
      apply Permutation_singleton_r in Hp. by rewrite Hp.
Qed.

(** C3 at the name a/b:v1 and the digest a/b@sha1. *)
Lemma C3_matching_digests_share_tags_witness :
  mapRepoDigestsToTags ("a/b" ++ ":" ++ "v1") pushedAB !! "a/b@sha1" =
    Some (flat_map (entryTag "a/b") (RepoTags pushedAB)).
Proof.
  destruct C3_matching_digests_share_tags as [H _].
  destruct (H "a/b" "v1" pushedAB) as [H1 _]; [reflexivity|].
  apply H1; [simpl; tauto | reflexivity].
Defined.

(** C5: when the connection succeeds and the name has no tag suffix,
    resolution fails with the no-tag error and returns no record. *)
Theorem C5_no_tag_error (docker : Docker) (order : RangeOrder) (name : string) :
  NewEnvClient docker = None -> ~ hasTagSuffix name ->
  getRepoDigests docker order name = ([], Some (ErrNoTag name)).
Proof.
  intros Hc Hn%MatchString_false.
  pose proof (getRepoDigests_cases docker order name) as H.
  by rewrite Hc, Hn in H.
Qed.

(** C5 at the untagged name a/b. *)
Lemma C5_no_tag_error_witness :
  getRepoDigests (dockerWith pushedAB) listingOrder "a/b" = ([], Some (ErrNoTag "a/b")).
Proof.
  apply C5_no_tag_error; [reflexivity|].
  apply MatchString_false. reflexivity.
Defined.

(** C6: when the connection and the inspection succeed for a name
    [bare ++ ":" ++ tag] and no repo-digest entry starts with [bare],
    resolution fails with the no-digests error and returns no record. *)
Theorem C6_no_digests_error (docker : Docker) (order : RangeOrder)
        (bare tag : string) (insp : ImageInspect) :
  NewEnvClient docker = None -> isTag tag = true ->
  ImageInspectWithRaw docker (bare ++ ":" ++ tag) = inl insp ->
  (forall d, In d (RepoDigests insp) -> HasPrefix d bare = false) ->
  getRepoDigests docker order (bare ++ ":" ++ tag)
    = ([], Some (ErrNoDigests (bare ++ ":" ++ tag))).
Proof.
  intros Hc Ht Hi Hno.
  assert (Hs : hasTagSuffix (bare ++ ":" ++ tag)) by (by exists bare, tag).
  pose proof (getRepoDigests_cases docker order (bare ++ ":" ++ tag)) as H.
  rewrite Hc, (proj2 (MatchString_spec _) Hs), Hi in H. cbv zeta in H.
  destruct H as [[_ H]|[Hne _]]; [done|]. exfalso. apply Hne.
  apply map_eq. intros d. rewrite lookup_empty.
  rewrite mapRepoDigestsToTags_lookup by by apply hasTagSuffix_nonempty.
  rewrite ReplaceAllString_suffix by done.
  destruct (existsb _ _) eqn:He; [|done].
  apply (existsb_eqb_In (fun e => HasPrefix e bare)) in He as [Hin Hp].
  by rewrite Hno in Hp.
Qed.

(** C6 at a locally built image: foo/bar:notpushedyet with one digest of
    another repository. *)
Lemma C6_no_digests_error_witness :
  getRepoDigests (dockerWith neverPushed) listingOrder ("foo/bar" ++ ":" ++ "notpushedyet")
    = ([], Some (ErrNoDigests ("foo/bar" ++ ":" ++ "notpushedyet"))).
Proof.
  apply (C6_no_digests_error (dockerWith neverPushed) listingOrder
           "foo/bar" "notpushedyet" neverPushed); [reflexivity | reflexivity | reflexivity |].
  intros d [<-|[]]. reflexivity.
Defined.



(** The shape of the repository matters: the pattern strips one suffix, so
    for a text outside that shape, with two tag suffixes in a row, the
    stripped name still ends in one.  On success the repository field is the
    name with its one trailing tag suffix removed, and it ends in a tag
    suffix exactly when the name ends in two. *)
Lemma repository_is_name_stripped_once (docker : Docker) (order : RangeOrder)
        (name : string) (imgs : list image) (img : image) :
  getRepoDigests docker order name = (imgs, None) -> In img imgs ->
  (exists tag, isTag tag = true /\ name = Name img ++ ":" ++ tag) /\
  (hasTagSuffix (Name img) <->
   exists p t1 t2, isTag t1 = true /\ isTag t2 = true /\ name = p ++ ":" ++ t1 ++ ":" ++ t2).
Proof.
  intros Hres Hin.
  apply getRepoDigests_success in Hres as ((b & t & -> & Ht) & insp & _ & Himgs).
  apply Himgs in Hin as (k & v & _ & ->).
  cbn [record Name]. rewrite ReplaceAllString_suffix by done.
  split; [by exists t|]. split.
  - intros (p & t1 & -> & Ht1). exists p, t1, t. by rewrite app_assoc_s.
  - intros (p & t1 & t2 & Ht1 & Ht2 & Heq).
    assert (Heq' : b ++ ":" ++ t = (p ++ ":" ++ t1) ++ ":" ++ t2)
      by (rewrite Heq, (app_assoc_s p (":" ++ t1) (":" ++ t2)); reflexivity).
    apply (f_equal (fun s => ReplaceAllString s "")) in Heq'.
    rewrite !ReplaceAllString_suffix in Heq' by done.
    subst b. by exists p, t1.
Qed.

Example stacked_suffix_keeps_one :
  getRepoDigests (dockerWith stackedSuffix) listingOrder "a:b:c"
    = ([{| Resolver.ID := "a:b@sha1"; Name := "a:b"; Tags := ["c"] |}], None) /\
  MatchString "a:b" = true.
Proof. split; vm_compute; reflexivity. Qed.

(** C9: two resolutions of one name against one daemon state, each with its
    own map iteration order, return the same error and the same records up
    to their order (each record with the very same tag list). *)
Theorem C9_resolution_deterministic (docker : Docker) (name : string)
        (order1 order2 : RangeOrder) :
  (getRepoDigests docker order1 name).2 = (getRepoDigests docker order2 name).2 /\
  (getRepoDigests docker order1 name).1 ≡ₚ (getRepoDigests docker order2 name).1 /\
  (forall img, In img (getRepoDigests docker order1 name).1 <->
               In img (getRepoDigests docker order2 name).1).
Proof.
  assert (H : (getRepoDigests docker order1 name).2 = (getRepoDigests docker order2 name).2 /\
              (getRepoDigests docker order1 name).1 ≡ₚ (getRepoDigests docker order2 name).1).
  { pose proof (getRepoDigests_cases docker order1 name) as H1.
    pose proof (getRepoDigests_cases docker order2 name) as H2.
    destruct (NewEnvClient docker); [by rewrite H1, H2|].
    destruct (MatchString name); [|by rewrite H1, H2].
    destruct (ImageInspectWithRaw docker name) as [insp|e]; [|by rewrite H1, H2].
    cbv zeta in H1, H2.
    destruct H1 as [[He H1]|[Hne H1]], H2 as [[He' H2]|[Hne' H2]]; try done;
      rewrite H1, H2; split; try done.
    cbn [fst]. apply Permutation_map.
    by rewrite (range_perm order1), (range_perm order2). }
  destruct H as [He Hp]. split; [done|]. split; [done|].
  intros img. rewrite <- !list_elem_of_In. by rewrite Hp.
Qed.

(** The iteration order is observable: the two listings of the sibling
    repositories differ as lists, though not as sets. *)
Example orders_differ :
  (getRepoDigests (dockerWith siblingRepos) listingOrder "a/b:v1").1 <>
  (getRepoDigests (dockerWith siblingRepos) reverseOrder "a/b:v1").1.
Proof. vm_compute. discriminate. Qed.

(** C10: matching is by raw string prefix.  With repo-tags a/b:v1, a/bc:v2
    and repo-digests a/b@sha1, a/bc@sha2, resolving a/b:v1 succeeds and, in
    every iteration order, returns a record for the digest a/bc@sha2 of the
    other repository, filed under a/b and carrying the tag v2. *)
Theorem C10_prefix_match_crosses_repositories :
  exists insp,
    In "a/bc:v2" (RepoTags insp) /\ In "a/bc@sha2" (RepoDigests insp) /\
    forall order,
      (getRepoDigests (dockerWith insp) order "a/b:v1").2 = None /\
      exists img,
        In img (getRepoDigests (dockerWith insp) order "a/b:v1").1 /\
        Resolver.ID img = "a/bc@sha2" /\ Name img = "a/b" /\ In "v2" (Tags img).
Proof.
  exists siblingRepos. split; [simpl; tauto|]. split; [simpl; tauto|].
  intros order.
  assert (Hl : mapRepoDigestsToTags "a/b:v1" siblingRepos !! "a/bc@sha2" = Some ["v1"; "v2"])
    by (vm_compute; reflexivity).
  pose proof (getRepoDigests_cases (dockerWith siblingRepos) order "a/b:v1") as Hc.
  cbn [dockerWith NewEnvClient ImageInspectWithRaw] in Hc.
  change (MatchString "a/b:v1") with true in Hc. cbv iota zeta in Hc.
  destruct Hc as [[He _]|[_ Hc]].
  { rewrite He in Hl. by rewrite lookup_empty in Hl. }
  split; [by rewrite Hc|].
  exists (record "a/b:v1" ("a/bc@sha2", ["v1"; "v2"])).
  split; [|split; [reflexivity | split; [reflexivity | simpl; tauto]]].
  destruct (getRepoDigests_success _ _ _ _ Hc) as (_ & insp & Hi & Himgs).
  injection Hi as <-. rewrite Hc. cbn [fst]. apply Himgs. eauto.
Qed.

(** ** Dispatching events *)

(** C8: on a received message, [processEvents] returns no error and starts
    either nothing or the one task for the message's identifier; it starts
    the task exactly when the type is "image" and the action is "push". *)
Theorem C8_dispatch_iff_image_push (m : Message) (url : string) :
  (processEvents (FromMessages m) url).2 = None /\
  ((processEvents (FromMessages m) url).1 = [GoAddToImageList (EventLoop.ID m) url] \/
   (processEvents (FromMessages m) url).1 = []) /\
  ((processEvents (FromMessages m) url).1 = [GoAddToImageList (EventLoop.ID m) url] <->
   Type_ m = "image" /\ Action m = "push").
Proof.
  unfold processEvents.
  destruct (String.eqb_spec (Type_ m) "image") as [Ht|Ht];
    destruct (String.eqb_spec (Action m) "push") as [Ha|Ha]; cbn [andb fst snd];
    (split; [reflexivity|]); (split; [auto|]); split; intros H; try done;
    destruct H; done.
Qed.

(** * Further properties of the code *)

(** ** The tag pattern: [tagRegexp] and its three methods *)

(** X1: stripping and extracting are two halves of one split.  When the
    pattern matches [s], [FindStringSubmatch] returns the suffix and the tag
    [t], and [s] is [ReplaceAllString s ""] followed by a colon and [t]; when
    it does not match, [FindStringSubmatch] returns nil and
    [ReplaceAllString] returns [s] unchanged. *)
Theorem strip_extract_roundtrip (s : string) :
  if MatchString s
  then exists t, FindStringSubmatch s = [":" ++ t; t] /\
                 s = ReplaceAllString s "" ++ ":" ++ t
  else FindStringSubmatch s = [] /\ ReplaceAllString s "" = s.
Proof.
  unfold MatchString, FindStringSubmatch, ReplaceAllString.
  destruct (find s) as [[[b w] g]|] eqn:Hf; [|done].
  apply find_Some in Hf as (-> & -> & Ht). exists g. by rewrite app_nil_r_s.
Qed.

(** X2: an extracted tag is between 1 and 128 bytes long, consists of
    characters of [[\w.-]] only, and so holds no colon. *)
Theorem extracted_tag_bounds (s whole t : string) :
  FindStringSubmatch s = [whole; t] ->
  1 <= String.length t <= 128 /\ allTagChars t = true /\ hasColon t = false.
Proof.
  unfold FindStringSubmatch.
  destruct (find s) as [[[b w] g]|] eqn:Hf; [|done].
  intros [= <- <-]. apply find_Some in Hf as (_ & _ & Ht).
  split; [by apply isTag_length|]. split; [|by apply isTag_hasColon].
  destruct g as [|c g]; [done|]. cbn [isTag] in Ht.
  apply andb_prop in Ht as [[Hw Hall]%andb_prop _]. simpl.
  by rewrite (isWord_isTagChar _ Hw), Hall.
Qed.

(** X2 at the entry quay.io/vaijab/did:v1.1 of the repository's test. *)
Lemma extracted_tag_bounds_witness :
  1 <= String.length "v1.1" <= 128 /\ allTagChars "v1.1" = true /\ hasColon "v1.1" = false.
Proof.
  apply (extracted_tag_bounds "quay.io/vaijab/did:v1.1" ":v1.1" "v1.1"). reflexivity.
Defined.

(** X3: only the text after the last colon decides a match.  A text without
    a colon never matches; a text [a ++ ":" ++ t] with no colon in [t]
    matches exactly when [t] is a tag token, whatever [a] is (a registry
    port such as localhost:5000/foo is therefore not taken for a tag). *)
Theorem match_decided_after_last_colon :
  (forall s, hasColon s = false -> MatchString s = false) /\
  (forall a t, hasColon t = false -> MatchString (a ++ ":" ++ t) = isTag t).
Proof.
  split.
  - intros s Hs. apply MatchString_false. intros (b & t & -> & _).
    rewrite hasColon_app in Hs. simpl in Hs. by rewrite orb_true_r in Hs.
  - intros a t Hc. destruct (isTag t) eqn:Ht.
    + apply MatchString_spec. by exists a, t.
    + apply MatchString_false. intros (b & t' & Heq & Ht').
      apply last_colon_unique in Heq as [_ ->]; [congruence | done |].
      by apply isTag_hasColon.
Qed.

(** X3 at the untagged name localhost:5000/foo. *)
Lemma match_decided_after_last_colon_witness :
  MatchString ("localhost" ++ ":" ++ "5000/foo") = isTag "5000/foo".
Proof.
  apply (proj2 match_decided_after_last_colon "localhost" "5000/foo"). reflexivity.
Defined.

(** ** [mapRepoDigestsToTags] and [getRepoDigests] *)

(** The three cases of the repository's [TestMapRepoDigestsToTags] pass on
    the model. *)
Example TestMapRepoDigestsToTags :
  mapRepoDigestsToTags "quay.io/vaijab/did" testInspect
    !! "quay.io/vaijab/did@sha256:42c5ace3ac1e133a49d81086993e5817e70c67cdbf808bf8934aac78e3e416f0"
    = Some ["v1"; "v1.1"; "latest"] /\
  mapRepoDigestsToTags "vaijab/did:v1" testInspect
    !! "vaijab/did@sha256:b3bedb83fb69f207d69adffb2e5690b449b658ea2c139240d20f2ef56bcb4c6f"
    = Some ["v1"; "latest"] /\
  mapRepoDigestsToTags "foo/bar:notpushedyet" testInspect !! "" = None.
Proof. repeat split; vm_compute; reflexivity. Qed.

(** X4: the keys of the map are exactly the repo-digest entries that start
    with the stripped name; for the empty name the map is empty. *)
Theorem map_keys (name : string) (insp : ImageInspect) (d : string) :
  is_Some (mapRepoDigestsToTags name insp !! d) <->
  name <> "" /\ In d (RepoDigests insp) /\ HasPrefix d (ReplaceAllString name "") = true.
Proof.
  destruct (String.eqb_spec name "") as [->|Hne].
  - unfold mapRepoDigestsToTags. cbn [String.eqb]. rewrite lookup_empty.
    split; [by intros [? ?] | by intros [? _]].
  - rewrite mapRepoDigestsToTags_lookup by by apply String.eqb_neq.
    destruct (existsb _ _) eqn:He.
    + apply (existsb_eqb_In (fun e => HasPrefix e (ReplaceAllString name ""))) in He.
      split; [by intros _ | by eexists].
    + split; [by intros [? ?]|]. intros (_ & Hin & Hp).
      assert (Ht : existsb (fun e => String.eqb e d && HasPrefix e (ReplaceAllString name ""))
                     (RepoDigests insp) = true)
        by by apply (existsb_eqb_In (fun e => HasPrefix e (ReplaceAllString name ""))).
      congruence.
Qed.

(** X5: the tag of the name plays no part in the map.  Two names that differ
    only in their tag give the same map, and so does the bare name itself
    when it is not empty and has no tag suffix of its own. *)
Theorem map_ignores_tag (bare t1 t2 : string) (insp : ImageInspect) :
  isTag t1 = true -> isTag t2 = true ->
  mapRepoDigestsToTags (bare ++ ":" ++ t1) insp = mapRepoDigestsToTags (bare ++ ":" ++ t2) insp /\
  (bare <> "" -> MatchString bare = false ->
   mapRepoDigestsToTags (bare ++ ":" ++ t1) insp = mapRepoDigestsToTags bare insp).
Proof.
  intros H1 H2.
  assert (Hm : forall t, isTag t = true ->
            mapRepoDigestsToTags (bare ++ ":" ++ t) insp =
            fold_left (fun m entry => if HasPrefix entry bare
                                      then <[entry := collectTags bare (RepoTags insp)]> m
                                      else m) (RepoDigests insp) ∅).
  { intros t Ht. unfold mapRepoDigestsToTags.
    rewrite hasTagSuffix_nonempty by by exists bare, t.
    by rewrite ReplaceAllString_suffix. }
  split; [by rewrite !Hm|].
  intros Hne Hno. rewrite Hm by done. unfold mapRepoDigestsToTags.
  apply String.eqb_neq in Hne. by rewrite Hne, ReplaceAllString_no_match.
Qed.

(** X5 at the repository's test data: vaijab/did:v1 and vaijab/did:latest. *)
Lemma map_ignores_tag_witness :
  mapRepoDigestsToTags ("vaijab/did" ++ ":" ++ "v1") testInspect
    = mapRepoDigestsToTags ("vaijab/did" ++ ":" ++ "latest") testInspect /\
  ("vaijab/did" <> "" -> MatchString "vaijab/did" = false ->
   mapRepoDigestsToTags ("vaijab/did" ++ ":" ++ "v1") testInspect
     = mapRepoDigestsToTags "vaijab/did" testInspect).
Proof.
  apply (map_ignores_tag "vaijab/did" "v1" "latest" testInspect); reflexivity.
Defined.

(** X6: a name that is nothing but a tag (":v1") has the empty string as
    its bare name, which every entry starts with: every repo-digest of the
    inspection result becomes a key, and each is bound to the tags of all
    repo-tag entries. *)
Theorem tag_only_name_matches_everything (tag : string) (insp : ImageInspect) (d : string) :
  isTag tag = true -> In d (RepoDigests insp) ->
  mapRepoDigestsToTags (":" ++ tag) insp !! d =
    Some (flat_map (fun entry => match FindStringSubmatch entry with
                                 | [_; t] => [t]
                                 | _ => []
                                 end) (RepoTags insp)).
Proof.
  intros Ht Hin.
  rewrite mapRepoDigestsToTags_lookup by (apply hasTagSuffix_nonempty; by exists "", tag).
  assert (Hr : ReplaceAllString (":" ++ tag) "" = "")
    by apply (ReplaceAllString_suffix "" tag Ht).
  rewrite Hr.
  rewrite (proj2 (existsb_eqb_In (fun e => HasPrefix e "") _ d)).
  - rewrite collectTags_flat_map. f_equal. apply flat_map_ext. intros e.
    unfold entryTag, HasPrefix. by destruct e.
  - split; [done|]. unfold HasPrefix. by destruct d.
Qed.

(** X6 at the name :v1 and a digest of an unrelated repository. *)
Lemma tag_only_name_matches_everything_witness :
  mapRepoDigestsToTags (":" ++ "v1") pushedAB !! "c/d@sha2" =
    Some (flat_map (fun entry => match FindStringSubmatch entry with
                                 | [_; t] => [t]
                                 | _ => []
                                 end) (RepoTags pushedAB)).
Proof.
  apply (tag_only_name_matches_everything "v1" pushedAB "c/d@sha2");
    [reflexivity | simpl; tauto].
Defined.

(** X7: [getRepoDigests] returns records or an error, never both and never
    neither. *)
Theorem records_xor_error (docker : Docker) (order : RangeOrder) (name : string) :
  ((getRepoDigests docker order name).1 = [] /\ (getRepoDigests docker order name).2 <> None) \/
  ((getRepoDigests docker order name).1 <> [] /\ (getRepoDigests docker order name).2 = None).
Proof.
  pose proof (getRepoDigests_cases docker order name) as H.
  destruct (NewEnvClient docker); [left; by rewrite H|].
  destruct (MatchString name); [|left; by rewrite H].
  destruct (ImageInspectWithRaw docker name) as [insp|e]; [|left; by rewrite H].
  cbv zeta in H. destruct H as [[_ H]|[Hne H]]; [left; by rewrite H|].
  right. rewrite H. split; [|done]. cbn [fst]. intros Hnil.
  apply map_eq_nil in Hnil. apply Hne, map_to_list_empty_iff.
  apply Permutation_nil_r. by rewrite <- (range_perm order), Hnil.
Qed.

(** X8: on success the records stand one to one for the distinct matching
    repo-digest entries: a digest is the ID of a record exactly when the
    inspection result lists it and it starts with the stripped name, and no
    two records have the same ID, however often the result lists a digest. *)
Theorem records_one_per_digest (docker : Docker) (order : RangeOrder)
        (name : string) (imgs : list image) (insp : ImageInspect) :
  getRepoDigests docker order name = (imgs, None) ->
  ImageInspectWithRaw docker name = inl insp ->
  (forall d, In d (map Resolver.ID imgs) <->
             In d (RepoDigests insp) /\ HasPrefix d (ReplaceAllString name "") = true) /\
  NoDup (map Resolver.ID imgs) /\
  length imgs <= length (RepoDigests insp).
Proof.
  intros Hres Hi.
  pose proof (getRepoDigests_cases docker order name) as Hc.
  destruct (NewEnvClient docker); [congruence|].
  destruct (MatchString name) eqn:Hm; [|congruence].
  rewrite Hi in Hc. cbv zeta in Hc. destruct Hc as [[_ Hc]|[_ Hc]]; [congruence|].
  rewrite Hc in Hres. injection Hres as <-.
  assert (Hne : name <> "").
  { intros ->. discriminate. }
  assert (Hids : map Resolver.ID (map (record name) (order (mapRepoDigestsToTags name insp)))
                 = (order (mapRepoDigestsToTags name insp)).*1).
  { rewrite List.map_map. done. }
  assert (Hkeys : forall d, In d (map Resolver.ID
                     (map (record name) (order (mapRepoDigestsToTags name insp)))) <->
                   In d (RepoDigests insp) /\ HasPrefix d (ReplaceAllString name "") = true).
  { intros d. rewrite Hids, <- list_elem_of_In, (range_perm order).
    rewrite list_elem_of_fmap. split.
    - intros ([k v] & -> & Hkv%elem_of_map_to_list).
      apply (proj1 (map_keys name insp k)). by eexists.
    - intros [Hin Hp]. destruct (proj2 (map_keys name insp d)) as [v Hv]; [done|].
      exists (d, v). split; [done|]. by apply elem_of_map_to_list. }
  assert (Hnd : NoDup (map Resolver.ID
                  (map (record name) (order (mapRepoDigestsToTags name insp))))).
  { rewrite Hids, (range_perm order). apply NoDup_fst_map_to_list. }
  split; [done|]. split; [done|].
  rewrite <- (length_map Resolver.ID).
  apply NoDup_incl_length; [by apply NoDup_ListNoDup|].
  intros d Hd. by apply Hkeys in Hd as [Hd _].
Qed.

(** X8 at the inspection result of claim C3. *)
Lemma records_one_per_digest_witness :
  (forall d, In d (map Resolver.ID [someImage]) <->
             In d (RepoDigests pushedAB) /\ HasPrefix d (ReplaceAllString "a/b:v1" "") = true) /\
  NoDup (map Resolver.ID [someImage]) /\
  length [someImage] <= length (RepoDigests pushedAB).
Proof.
  apply (records_one_per_digest (dockerWith pushedAB) listingOrder "a/b:v1" [someImage] pushedAB);
    [vm_compute; reflexivity | reflexivity].
Defined.

(** X9: on success every record files its digest under the stripped name
    the digest starts with, and all records carry one and the same tag
    list, whose entries are tag tokens, one for every repo-tag entry that
    starts with the stripped name and ends in a tag. *)
Theorem record_fields (docker : Docker) (order : RangeOrder)
        (name : string) (imgs : list image) (insp : ImageInspect) (img : image) :
  getRepoDigests docker order name = (imgs, None) ->
  ImageInspectWithRaw docker name = inl insp -> In img imgs ->
  Name img = ReplaceAllString name "" /\
  HasPrefix (Resolver.ID img) (Name img) = true /\
  Tags img = collectTags (Name img) (RepoTags insp) /\
  Forall (fun t => isTag t = true) (Tags img) /\
  length (Tags img) <= length (RepoTags insp).
Proof.
  intros Hres Hi Hin.
  destruct (getRepoDigests_success _ _ _ _ Hres) as (Hs & insp' & Hi' & Himgs).
  rewrite Hi in Hi'. injection Hi' as <-.
  apply Himgs in Hin as (k & v & Hl & ->). cbn [record Name Resolver.ID Tags fst snd].
  assert (Hk := proj1 (map_keys name insp k) (ex_intro _ v Hl)).
  destruct Hk as (Hne & _ & Hp).
  rewrite mapRepoDigestsToTags_lookup in Hl by by apply hasTagSuffix_nonempty.
  destruct (existsb _ _); [|done]. injection Hl as <-.
  split; [done|]. split; [done|]. split; [done|]. split.
  - apply Forall_forall. intros t Ht%list_elem_of_In.
    apply collectTags_In in Ht as (_ & _ & _ & _ & _ & Ht). done.
  - rewrite collectTags_flat_map.
    induction (RepoTags insp) as [|e l IH]; [done|]. simpl.
    rewrite List.length_app. unfold entryTag at 1.
    destruct (HasPrefix e _); [|simpl; lia].
    destruct (FindStringSubmatch e) as [|w [|t [|]]]; simpl; lia.
Qed.

(** X9 at the inspection result of claim C3. *)
Lemma record_fields_witness :
  Name someImage = ReplaceAllString "a/b:v1" "" /\
  HasPrefix (Resolver.ID someImage) (Name someImage) = true /\
  Tags someImage = collectTags (Name someImage) (RepoTags pushedAB) /\
  Forall (fun t => isTag t = true) (Tags someImage) /\
  length (Tags someImage) <= length (RepoTags pushedAB).
Proof.
  apply (record_fields (dockerWith pushedAB) listingOrder "a/b:v1" [someImage] pushedAB);
    [vm_compute; reflexivity | reflexivity | simpl; tauto].
Defined.

(** ** The publish loop of [addToImageList] *)

Lemma sleeps_app a b : sleeps (a ++ b)%list = sleeps a + sleeps b.
Proof. unfold sleeps. by rewrite List.filter_app, List.length_app. Qed.

Lemma drained_app a b : drained (a ++ b)%list = (drained a ++ drained b)%list.
Proof. unfold drained. by rewrite flat_map_app. Qed.

Lemma drained_drains ds : drained (map Drain ds) = ds.
Proof. induction ds as [|d ds IH]; [done|]. simpl. by rewrite IH. Qed.

Lemma sleeps_drains ds : sleeps (map Drain ds) = 0.
Proof. induction ds; [done|]. unfold sleeps in *. simpl. done. Qed.

Lemma waited_app a tr : waited a tr = (tr ++ waited a [])%list.
Proof. unfold waited. destruct (negb (a =? 0)%nat); [done | by rewrite List.app_nil_r]. Qed.

Lemma waited_counts a :
  sleeps (waited a []) = (if (a =? 0)%nat then 0 else 1) /\
  puts (waited a []) = 0 /\ drained (waited a []) = [] /\
  successLogged (waited a []) = false.
Proof. unfold waited. by destruct (a =? 0)%nat. Qed.

Lemma seq_step a n : a + 1 <= n -> seq (S a) (n - a) = a + 1 :: seq (S (a + 1)) (n - (a + 1)).
Proof.
  intros H. replace (n - a) with (S (n - (a + 1))) by lia.
  rewrite Nat.add_1_r. reflexivity.
Qed.

Section LoopCases.
Variables (name url : string) (i : image) (world : nat -> outcome).

(** Induction along the passes of the loop: one case for each way through
    the body. *)
Lemma loop_cases (P : nat -> list nat -> list event -> finished -> Prop) :
  (forall defers tr,
     P 30 defers tr
       {| attempts := 30; final := GivenUp;
          trace := ((tr ++ [Log (LogMaxRetries name)]) ++ map Drain defers)%list |}) ->
  (forall a defers tr e,
     a <> 30 -> world (a + 1) = MarshalError e ->
     P a defers tr
       {| attempts := a + 1; final := GivenUp;
          trace := ((waited a tr ++ [Log (LogMarshalError (Name i) e)])
                      ++ map Drain defers)%list |}) ->
  (forall a defers tr e r,
     a <> 30 -> world (a + 1) = TransportError e ->
     P (a + 1) defers (waited a tr ++ [Put url i; Log (LogPutError (Name i) e)])%list r ->
     P a defers tr r) ->
  (forall a defers tr,
     a <> 30 -> world (a + 1) = Response 200 ->
     P a defers tr
       {| attempts := a + 1; final := Succeeded;
          trace := (((waited a tr ++ [Put url i]) ++ [Log (LogSubmitted i)])
                      ++ map Drain (a + 1 :: defers))%list |}) ->
  (forall a defers tr r,
     a <> 30 -> world (a + 1) = Response 500 ->
     P (a + 1) (a + 1 :: defers)
       ((waited a tr ++ [Put url i]) ++ [Log (LogStatus500 name 500)])%list r ->
     P a defers tr r) ->
  (forall a defers tr code,
     a <> 30 -> world (a + 1) = Response code -> code <> 200%Z -> code <> 500%Z ->
     P a defers tr
       {| attempts := a + 1; final := GivenUp;
          trace := (((waited a tr ++ [Put url i]) ++ [Log (LogBadRequest name code)])
                      ++ map Drain (a + 1 :: defers))%list |}) ->
  forall fuel a defers tr r,
    loop name url i world fuel a defers tr = Some r -> P a defers tr r.
Proof.
  intros Hmax Hmarshal Htransport H200 H500 Hbad.
  induction fuel as [|fuel IH]; intros a defers tr r; [discriminate|].
  cbn [loop]. fold (waited a tr).
  destruct (Nat.eqb_spec a 30) as [->|Hne].
  { intros [= <-]. apply Hmax. }
  destruct (world (a + 1)) as [e|e|code] eqn:Hw.
  - intros [= <-]. by apply Hmarshal.
  - intros Hr. apply (Htransport _ _ _ e); [done | done |]. by apply IH.
  - unfold http_StatusOK, http_StatusInternalServerError.
    destruct (Z.eqb_spec code 200) as [->|Hc200].
    { intros [= <-]. by apply H200. }
    destruct (Z.eqb_spec code 500) as [->|Hc500].
    { intros Hr. apply H500; [done | done |]. by apply IH. }
    intros [= <-]. by apply Hbad.
Qed.

(** Where the loop stops. *)
Lemma loop_stop fuel a defers tr r :
  loop name url i world fuel a defers tr = Some r -> a <= 30 ->
  a <= attempts r <= 30 /\ (a < 30 -> a < attempts r) /\
  (forall n, a < n < attempts r -> transient (world n) = true) /\
  (a < attempts r -> transient (world (attempts r)) = false \/ attempts r = 30) /\
  (a < attempts r -> (final r = Succeeded <-> world (attempts r) = Response 200)) /\
  (attempts r = a -> final r = GivenUp).
Proof.
  intros Hr. pattern a, defers, tr, r.
  eapply loop_cases; [..|exact Hr]; clear; cbv beta; cbn [attempts final].
  - intros _ _ _. repeat split; intros; try lia; try done.
  - intros a _ _ e Hne Hw Ha. rewrite Hw.
    repeat split; intros; try lia; try done. by left.
  - intros a _ _ e r Hne Hw IH Ha.
    destruct IH as (H1 & H2 & H3 & H4 & H5 & H6); [lia|].
    assert (Hcase : a + 1 < attempts r \/ attempts r = a + 1) by lia.
    split; [lia|]. split; [lia|]. split; [|split; [|split]].
    + intros n Hn. destruct (Nat.eq_dec n (a + 1)) as [->|]; [by rewrite Hw | apply H3; lia].
    + intros _. destruct Hcase as [Hlt|Heq]; [by apply H4 | right; lia].
    + intros _. destruct Hcase as [Hlt|Heq]; [by apply H5|].
      rewrite (H6 Heq), Heq, Hw. split; discriminate.
    + lia.
  - intros a _ _ Hne Hw Ha. rewrite Hw.
    repeat split; intros; try lia; try done. by left.
  - intros a _ _ r Hne Hw IH Ha.
    destruct IH as (H1 & H2 & H3 & H4 & H5 & H6); [lia|].
    assert (Hcase : a + 1 < attempts r \/ attempts r = a + 1) by lia.
    split; [lia|]. split; [lia|]. split; [|split; [|split]].
    + intros n Hn. destruct (Nat.eq_dec n (a + 1)) as [->|]; [by rewrite Hw | apply H3; lia].
    + intros _. destruct Hcase as [Hlt|Heq]; [by apply H4 | right; lia].
    + intros _. destruct Hcase as [Hlt|Heq]; [by apply H5|].
      rewrite (H6 Heq), Heq, Hw. split; discriminate.
    + lia.
  - intros a _ _ code Hne Hw Hc2 Hc5 Ha. rewrite Hw.
    repeat split; intros; try lia; try done.
    + left. simpl. by apply Z.eqb_neq.
    + congruence.
Qed.

(** What the loop adds to the trace, counted. *)
Lemma loop_counts fuel a defers tr r :
  loop name url i world fuel a defers tr = Some r ->
  a <= attempts r /\
  sleeps (trace r) = sleeps tr + ((attempts r - a) - (if (a =? 0)%nat then 1 else 0)) /\
  puts (trace r) + (if (a <? attempts r)%nat && isMarshalError (world (attempts r))
                    then 1 else 0)
    = puts tr + (attempts r - a) /\
  successLogged (trace r) =
    successLogged tr || match final r with Succeeded => true | GivenUp => false end.
Proof.
  intros Hr. pattern a, defers, tr, r.
  eapply loop_cases; [..|exact Hr]; clear; cbv beta; cbn [attempts final trace].
  - intros defers tr. rewrite !sleeps_app, !puts_app, !successLogged_app,
      sleeps_drains, puts_drains, successLogged_drains.
    rewrite Nat.ltb_irrefl. cbn. unfold sleeps, puts; simpl.
    rewrite !orb_false_r. repeat split; lia.
  - intros a defers tr e Hne Hw. rewrite Hw, (waited_app a tr).
    destruct (waited_counts a) as (Hs & Hp & _ & Hl).
    rewrite !sleeps_app, !puts_app, !successLogged_app,
      sleeps_drains, puts_drains, successLogged_drains, Hs, Hp, Hl.
    replace (a <? a + 1)%nat with true by (symmetry; apply Nat.ltb_lt; lia).
    cbn. unfold sleeps, puts; simpl. rewrite !orb_false_r.
    repeat split; destruct (a =? 0)%nat; lia.
  - intros a defers tr e r Hne Hw (H1 & H2 & H3 & H4).
    rewrite (waited_app a tr) in H2, H3, H4.
    destruct (waited_counts a) as (Hs & Hp & _ & Hl).
    rewrite !sleeps_app in H2. rewrite !puts_app in H3. rewrite !successLogged_app in H4.
    rewrite Hs in H2. rewrite Hp in H3. rewrite Hl in H4.
    replace (a + 1 =? 0)%nat with false in H2 by (symmetry; apply Nat.eqb_neq; lia).
    change (sleeps [Put url i; Log (LogPutError (Name i) e)]) with 0 in H2.
    change (puts [Put url i; Log (LogPutError (Name i) e)]) with 1 in H3.
    change (successLogged [Put url i; Log (LogPutError (Name i) e)]) with false in H4.
    rewrite !orb_false_r in H4.
    split; [lia|]. split; [destruct (a =? 0)%nat; lia|]. split; [|done].
    destruct (Nat.ltb_spec (a + 1) (attempts r)) as [Hlt|Hge].
    + replace (a <? attempts r)%nat with true by (symmetry; apply Nat.ltb_lt; lia).
      cbn [andb] in H3 |- *. lia.
    + assert (attempts r = a + 1) as -> by lia.
      rewrite Hw. cbn [andb isMarshalError] in H3 |- *. rewrite andb_false_r. lia.
  - intros a defers tr Hne Hw. rewrite Hw, (waited_app a tr).
    destruct (waited_counts a) as (Hs & Hp & _ & Hl).
    rewrite !sleeps_app, !puts_app, !successLogged_app,
      sleeps_drains, puts_drains, successLogged_drains, Hs, Hp, Hl.
    cbn. unfold sleeps, puts; simpl. rewrite andb_false_r, !orb_false_r, orb_true_r.
    repeat split; destruct (a =? 0)%nat; lia.
  - intros a defers tr r Hne Hw (H1 & H2 & H3 & H4).
    rewrite (waited_app a tr) in H2, H3, H4.
    destruct (waited_counts a) as (Hs & Hp & _ & Hl).
    rewrite !sleeps_app in H2. rewrite !puts_app in H3. rewrite !successLogged_app in H4.
    rewrite Hs in H2. rewrite Hp in H3. rewrite Hl in H4.
    replace (a + 1 =? 0)%nat with false in H2 by (symmetry; apply Nat.eqb_neq; lia).
    change (sleeps [Put url i]) with 0 in H2.
    change (sleeps [Log (LogStatus500 name 500)]) with 0 in H2.
    change (puts [Put url i]) with 1 in H3.
    change (puts [Log (LogStatus500 name 500)]) with 0 in H3.
    change (successLogged [Put url i]) with false in H4.
    change (successLogged [Log (LogStatus500 name 500)]) with false in H4.
    rewrite !orb_false_r in H4.
    split; [lia|]. split; [destruct (a =? 0)%nat; lia|]. split; [|done].
    destruct (Nat.ltb_spec (a + 1) (attempts r)) as [Hlt|Hge].
    + replace (a <? attempts r)%nat with true by (symmetry; apply Nat.ltb_lt; lia).
      cbn [andb] in H3 |- *. lia.
    + assert (attempts r = a + 1) as -> by lia.
      rewrite Hw. cbn [andb isMarshalError] in H3 |- *. rewrite andb_false_r. lia.
  - intros a defers tr code Hne Hw Hc2 Hc5. rewrite Hw, (waited_app a tr).
    destruct (waited_counts a) as (Hs & Hp & _ & Hl).
    rewrite !sleeps_app, !puts_app, !successLogged_app,
      sleeps_drains, puts_drains, successLogged_drains, Hs, Hp, Hl.
    cbn. unfold sleeps, puts; simpl. rewrite andb_false_r, !orb_false_r.
    repeat split; destruct (a =? 0)%nat; lia.
Qed.

(** The deferred drains: all at the end, last response first. *)
Lemma loop_drains fuel a defers tr r :
  loop name url i world fuel a defers tr = Some r ->
  a <= attempts r /\
  exists body,
    trace r = (tr ++ body ++ map Drain
                 (rev (List.filter (fun n => isResponse (world n))
                         (seq (S a) (attempts r - a))) ++ defers))%list /\
    drained body = [].
Proof.
  intros Hr. pattern a, defers, tr, r.
  eapply loop_cases; [..|exact Hr]; clear; cbv beta; cbn [attempts final trace].
  - intros defers tr. split; [lia|]. exists [Log (LogMaxRetries name)].
    rewrite Nat.sub_diag. cbn. by rewrite <- List.app_assoc.
  - intros a defers tr e Hne Hw. split; [lia|].
    exists (waited a [] ++ [Log (LogMarshalError (Name i) e)])%list.
    rewrite (seq_step a (a + 1)) by lia. rewrite Nat.sub_diag. cbn [seq List.filter].
    rewrite Hw. cbn [isResponse rev app]. rewrite (waited_app a tr), drained_app.
    destruct (waited_counts a) as (_ & _ & -> & _).
    split; [by rewrite <- !List.app_assoc | done].
  - intros a defers tr e r Hne Hw (H1 & body & Ht & Hd). split; [lia|].
    exists (waited a [] ++ [Put url i; Log (LogPutError (Name i) e)] ++ body)%list.
    rewrite (seq_step a (attempts r)) by lia. cbn [List.filter]. rewrite Hw.
    cbn [isResponse]. rewrite Ht, (waited_app a tr), !drained_app, Hd.
    destruct (waited_counts a) as (_ & _ & -> & _).
    split; [by rewrite <- !List.app_assoc | done].
  - intros a defers tr Hne Hw. split; [lia|].
    exists (waited a [] ++ [Put url i; Log (LogSubmitted i)])%list.
    rewrite (seq_step a (a + 1)) by lia. rewrite Nat.sub_diag. cbn [seq List.filter].
    rewrite Hw. cbn [isResponse rev app]. rewrite (waited_app a tr), drained_app.
    destruct (waited_counts a) as (_ & _ & -> & _).
    split; [by rewrite <- !List.app_assoc | done].
  - intros a defers tr r Hne Hw (H1 & body & Ht & Hd). split; [lia|].
    exists (waited a [] ++ [Put url i; Log (LogStatus500 name 500)] ++ body)%list.
    rewrite (seq_step a (attempts r)) by lia. cbn [List.filter]. rewrite Hw.
    cbn [isResponse rev]. rewrite Ht, (waited_app a tr), !drained_app, Hd.
    destruct (waited_counts a) as (_ & _ & -> & _).
    split; [by rewrite <- !List.app_assoc | done].
  - intros a defers tr code Hne Hw Hc2 Hc5. split; [lia|].
    exists (waited a [] ++ [Put url i; Log (LogBadRequest name code)])%list.
    rewrite (seq_step a (a + 1)) by lia. rewrite Nat.sub_diag. cbn [seq List.filter].
    rewrite Hw. cbn [isResponse rev app]. rewrite (waited_app a tr), drained_app.
    destruct (waited_counts a) as (_ & _ & -> & _).
    split; [by rewrite <- !List.app_assoc | done].
Qed.

End LoopCases.

(** X10: the loop stops at the first attempt that does not end in a
    transient failure, and after the 30th attempt at the latest: every
    earlier attempt met a transport error or a 500, and the last one either
    met something else or was the 30th. *)
Theorem publish_stops_at_first_non_transient
        (name url : string) (i : image) (world : nat -> outcome) :
  exists r, publish name url i world 31 = Some r /\
    1 <= attempts r <= 30 /\
    (forall n, 1 <= n < attempts r -> transient (world n) = true) /\
    (transient (world (attempts r)) = false \/ attempts r = 30).
Proof.
  destruct (loop_returns name url i world 31 0 [] []) as (r & Hr & _); [lia | lia |].
  exists r. split; [done|].
  destruct (loop_stop _ _ _ _ _ _ _ _ _ Hr) as (H1 & H2 & H3 & H4 & _); [lia|].
  assert (0 < attempts r) by (apply H2; lia).
  split; [lia|]. split; [intros n Hn; apply H3; lia | by apply H4].
Qed.

(** X11: the goroutine ends in success exactly when its last attempt got a
    200, and a "submitted" line is in the log exactly then. *)
Theorem publish_success_iff_last_200
        (name url : string) (i : image) (world : nat -> outcome) :
  exists r, publish name url i world 31 = Some r /\
    (final r = Succeeded <-> world (attempts r) = Response 200) /\
    (successLogged (trace r) = true <-> final r = Succeeded).
Proof.
  destruct (loop_returns name url i world 31 0 [] []) as (r & Hr & _); [lia | lia |].
  exists r. split; [done|].
  destruct (loop_stop _ _ _ _ _ _ _ _ _ Hr) as (_ & H2 & _ & _ & H5 & _); [lia|].
  destruct (loop_counts _ _ _ _ _ _ _ _ _ Hr) as (_ & _ & _ & H4).
  split; [apply H5, H2; lia|].
  rewrite H4. cbn. destruct (final r); split; done.
Qed.

(** X12: there is one three-second wait between consecutive attempts and
    none before the first; every attempt calls [httpPut] once, except a last
    attempt that fails in [json.Marshal]; so at most 30 requests are sent. *)
Theorem publish_counts (name url : string) (i : image) (world : nat -> outcome) :
  exists r, publish name url i world 31 = Some r /\
    sleeps (trace r) = attempts r - 1 /\
    puts (trace r) = attempts r - (if isMarshalError (world (attempts r)) then 1 else 0) /\
    puts (trace r) <= 30.
Proof.
  destruct (loop_returns name url i world 31 0 [] []) as (r & Hr & _); [lia | lia |].
  exists r. split; [done|].
  destruct (loop_stop _ _ _ _ _ _ _ _ _ Hr) as (H1 & H2 & _); [lia|].
  assert (Hpos : 0 < attempts r) by (apply H2; lia).
  destruct (loop_counts _ _ _ _ _ _ _ _ _ Hr) as (_ & Hs & Hp & _).
  change (sleeps []) with 0 in Hs. change (puts []) with 0 in Hp.
  cbn [Nat.eqb] in Hs.
  replace (0 <? attempts r)%nat with true in Hp by (symmetry; by apply Nat.ltb_lt).
  cbn [andb] in Hp. destruct (isMarshalError (world (attempts r))); lia.
Qed.

(** X13: no response body is drained while the loop runs.  The deferred
    drains all come after the last log line, when the goroutine returns,
    one for every attempt that got a response, the latest first. *)
Theorem publish_drains_on_return (name url : string) (i : image) (world : nat -> outcome) :
  exists r body, publish name url i world 31 = Some r /\
    trace r = (body ++ map Drain
                 (rev (List.filter (fun n => isResponse (world n)) (seq 1 (attempts r)))))%list /\
    drained body = [].
Proof.
  destruct (loop_returns name url i world 31 0 [] []) as (r & Hr & _); [lia | lia |].
  destruct (loop_drains _ _ _ _ _ _ _ _ _ Hr) as (_ & body & Ht & Hd).
  exists r, body. split; [done|]. split; [|done].
  rewrite Ht. by rewrite Nat.sub_0_r, List.app_nil_r.
Qed.

(** X14: when the [k]-th attempt ([k] at most 30) is the first to get a 200
    and all earlier ones met transient failures, the goroutine succeeds
    after exactly [k] requests and [k - 1] waits, and logs the "submitted"
    line. *)
Theorem publish_succeeds_at_kth (name url : string) (i : image)
        (world : nat -> outcome) (k : nat) :
  1 <= k <= 30 ->
  (forall n, 1 <= n < k -> transient (world n) = true) ->
  world k = Response 200 ->
  exists r, publish name url i world 31 = Some r /\
    attempts r = k /\ final r = Succeeded /\
    puts (trace r) = k /\ sleeps (trace r) = k - 1 /\
    successLogged (trace r) = true.
Proof.
  intros Hk Hbefore Hat.
  destruct (loop_returns name url i world 31 0 [] []) as (r & Hr & _); [lia | lia |].
  exists r. split; [done|].
  destruct (loop_stop _ _ _ _ _ _ _ _ _ Hr) as (H1 & H2 & H3 & H4 & H5 & _); [lia|].
  assert (Hpos : 0 < attempts r) by (apply H2; lia).
  assert (Heq : attempts r = k).
  { destruct (Nat.lt_trichotomy (attempts r) k) as [Hlt|[Heq|Hgt]]; [|done|].
    - destruct (H4 Hpos) as [Hnt|H30]; [|lia].
      rewrite Hbefore in Hnt by lia. discriminate.
    - assert (Ht : transient (world k) = true) by (apply H3; lia).
      rewrite Hat in Ht. discriminate. }
  assert (Hfin : final r = Succeeded) by (apply (H5 Hpos); by rewrite Heq).
  destruct (loop_counts _ _ _ _ _ _ _ _ _ Hr) as (_ & Hs & Hp & Hl).
  change (sleeps []) with 0 in Hs. change (puts []) with 0 in Hp.
  cbn [Nat.eqb] in Hs. rewrite Heq in Hs, Hp. rewrite Hat in Hp.
  cbn [isMarshalError] in Hp. rewrite andb_false_r in Hp.
  rewrite Hl, Hfin. repeat split; try done; lia.
Qed.

(** X14 at a catalog that answers 500 twice and then 200. *)
Lemma publish_succeeds_at_kth_witness :
  exists r,
    publish "a/b:v1" "http://host/images" someImage
      (fun n => if (n <? 3)%nat then Response 500 else Response 200) 31 = Some r /\
    attempts r = 3 /\ final r = Succeeded /\
    puts (trace r) = 3 /\ sleeps (trace r) = 3 - 1 /\
    successLogged (trace r) = true.
Proof.
  apply (publish_succeeds_at_kth "a/b:v1" "http://host/images" someImage
           (fun n => if (n <? 3)%nat then Response 500 else Response 200) 3).
  - lia.
  - intros n Hn. destruct (Nat.ltb_spec n 3); [reflexivity | lia].
  - reflexivity.
Defined.

Section PublishRequests.
Variables (name url : string) (i : image) (world : nat -> outcome).

Lemma ownEvent_drains ds : Forall (ownEvent name url i) (map Drain ds).
Proof. induction ds; constructor; done. Qed.

Lemma ownEvent_waited a tr : Forall (ownEvent name url i) tr -> Forall (ownEvent name url i) (waited a tr).
Proof.
  intros H. unfold waited. destruct (negb (a =? 0)%nat); [|done].
  apply Forall_app. split; [done|]. by repeat constructor.
Qed.

Lemma loop_own_events fuel a defers tr r :
  loop name url i world fuel a defers tr = Some r ->
  Forall (ownEvent name url i) tr -> Forall (ownEvent name url i) (trace r).
Proof.
  intros Hr. pattern a, defers, tr, r.
  eapply loop_cases; [..|exact Hr]; clear; cbv beta; cbn [trace].
  - intros defers tr H. repeat (apply Forall_app; split); auto using ownEvent_drains.
    by repeat constructor.
  - intros a defers tr e _ _ H.
    repeat (apply Forall_app; split); auto using ownEvent_drains, ownEvent_waited.
    by repeat constructor.
  - intros a defers tr e r _ _ IH H. apply IH.
    repeat (apply Forall_app; split); auto using ownEvent_waited.
    by repeat constructor.
  - intros a defers tr _ _ H.
    repeat (apply Forall_app; split); auto using ownEvent_waited.
    + by repeat constructor.
    + by repeat constructor.
    + apply (ownEvent_drains (a + 1 :: defers)).
  - intros a defers tr r _ _ IH H. apply IH.
    repeat (apply Forall_app; split); auto using ownEvent_waited.
    + by repeat constructor.
    + by repeat constructor.
  - intros a defers tr code _ _ _ _ H.
    repeat (apply Forall_app; split); auto using ownEvent_waited.
    + by repeat constructor.
    + by repeat constructor.
    + apply (ownEvent_drains (a + 1 :: defers)).
Qed.

End PublishRequests.

(** X15: a publish goroutine only ever sends its own request: every
    [httpPut] of the run is a PUT of its record to its URL, the success line
    shows its record, and every error line names its image. *)
Theorem publish_only_own_request (name url : string) (i : image) (world : nat -> outcome) :
  exists r, publish name url i world 31 = Some r /\
    Forall (ownEvent name url i) (trace r).
Proof.
  destruct (loop_returns name url i world 31 0 [] []) as (r & Hr & _); [lia | lia |].
  exists r. split; [done|]. by apply (loop_own_events _ _ _ _ _ _ _ _ _ Hr).
Qed.

(** ** [addToImageList] and [processEvents] *)

Lemma records_nonempty name (order : RangeOrder) (m : gmap string (list string)) :
  m <> ∅ -> map (record name) (order m) <> [].
Proof.
  intros Hne Hnil. apply map_eq_nil in Hnil. apply Hne, map_to_list_empty_iff.
  apply Permutation_nil_r. by rewrite <- (range_perm order), Hnil.
Qed.

Lemma records_NoDup name (order : RangeOrder) (m : gmap string (list string)) :
  NoDup (map (record name) (order m)).
Proof.
  apply (NoDup_fmap_1 Resolver.ID).
  change (NoDup (map Resolver.ID (map (record name) (order m)))).
  rewrite List.map_map. change (NoDup ((order m).*1)).
  rewrite (range_perm order). apply NoDup_fst_map_to_list.
Qed.

(** X16: [addToImageList] either logs the one resolution error and starts
    nothing, or logs nothing and starts one publish goroutine for each
    record, every one with the name and URL it was given itself; in that
    case it starts at least one, and no two for the same record. *)
Theorem addToImageList_one_goroutine_per_record
        (docker : Docker) (order : RangeOrder) (name url : string) :
  (exists e, (getRepoDigests docker order name).2 = Some e /\
             addToImageList docker order name url = ([LogError e], [])) \/
  ((getRepoDigests docker order name).2 = None /\
   addToImageList docker order name url =
     ([], map (GoPublish name url) (getRepoDigests docker order name).1) /\
   (addToImageList docker order name url).2 <> [] /\
   NoDup (addToImageList docker order name url).2).
Proof.
  unfold addToImageList.
  pose proof (getRepoDigests_cases docker order name) as Hc.
  destruct (NewEnvClient docker); [left; rewrite Hc; by eexists|].
  destruct (MatchString name); [|left; rewrite Hc; by eexists].
  destruct (ImageInspectWithRaw docker name) as [insp|e]; [|left; rewrite Hc; by eexists].
  cbv zeta in Hc. destruct Hc as [[_ Hc]|[Hne Hc]]; [left; rewrite Hc; by eexists|].
  right. rewrite Hc. cbn [fst snd]. split; [done|]. split; [done|]. split.
  - intros Hnil. apply map_eq_nil in Hnil. by apply (records_nonempty name order) in Hne.
  - assert (Hinj : Inj eq eq (GoPublish name url)) by (intros x y [= ->]; done).
    apply (NoDup_fmap_2 (GoPublish name url)), records_NoDup.
Qed.

(** X17: [processEvents] starts at most one goroutine and never starts one
    when it returns an error.  A value from the error channel starts
    nothing, and is returned as an error unless it is nil or [io.EOF]. *)
Theorem processEvents_errors (url : string) :
  (forall sel, length (processEvents sel url).1 <= 1 /\
               ((processEvents sel url).2 <> None -> (processEvents sel url).1 = [])) /\
  (forall err, (processEvents (FromErrs err) url).1 = [] /\
               ((processEvents (FromErrs err) url).2 = None <-> err = ErrNil \/ err = ErrEOF) /\
               ((processEvents (FromErrs err) url).2 <> None ->
                (processEvents (FromErrs err) url).2 = Some (ErrReadEvents err))).
Proof.
  split.
  - intros [[| |msg]|m]; cbn; try (split; [lia | done]).
    destruct (_ && _); cbn; (split; [lia | done]).
  - intros [| |msg]; cbn; (split; [done|]); split; try done; try tauto.
    split; [done|]. intros [H|H]; discriminate.
Qed.

(** ** [joinURL] with the path of [main], [imageListPutImagesPath] *)

(** The prefix [String] writes before the path: scheme and authority. *)
Lemma resolve_images (b : URL) :
  exists p, Parse imageListPutImagesPath = inl p /\
    ResolveReference b p =
      {| Scheme := Scheme b; Opaque := ""; User := User b; Host := Host b;
         NetURL.Path := "/images"; RawPath := ""; ForceQuery := false;
         RawQuery := ""; Fragment := "" |}.
Proof. eexists. split; [vm_compute; reflexivity|]. lazy. reflexivity. Qed.

Lemma joinURL_images (u : string) :
  joinURL u imageListPutImagesPath =
  match Parse u with
  | inr e => ("", Some e)
  | inl b =>
      (String_ {| Scheme := Scheme b; Opaque := ""; User := User b; Host := Host b;
                  NetURL.Path := "/images"; RawPath := ""; ForceQuery := false;
                  RawQuery := ""; Fragment := "" |}, None)
  end.
Proof.
  unfold joinURL.
  destruct (Parse u) as [b|e].
  - destruct (resolve_images b) as (p & Hp & Hr). rewrite Hp. by rewrite Hr.
  - destruct (resolve_images {| Scheme := ""; Opaque := ""; User := None; Host := "";
                                NetURL.Path := ""; RawPath := ""; ForceQuery := false;
                                RawQuery := ""; Fragment := "" |}) as (p & Hp & _).
    by rewrite Hp.
Qed.

Lemma String_images scheme user host :
  exists pre,
    String_ {| Scheme := scheme; Opaque := ""; User := user; Host := host;
               NetURL.Path := "/images"; RawPath := ""; ForceQuery := false;
               RawQuery := ""; Fragment := "" |} = pre ++ "/images".
Proof.
  unfold String_. cbn [Scheme Opaque User Host NetURL.Path RawPath ForceQuery RawQuery Fragment].
  change (EscapedPath _) with "/images".
  destruct (String.eqb scheme ""), (String.eqb host ""), user as [ui|];
    cbn [negb orb andb isSome String.eqb Ascii.eqb Bool.eqb HasPrefix String.prefix];
    eexists; reflexivity.
Qed.

(** X18: with the path of [main], [joinURL] fails exactly when the base URL
    does not parse, then returning the empty string and the parse error;
    otherwise it returns a URL that ends in /images, with no query and no
    fragment after it. *)
Theorem joinURL_images_total (u : string) :
  match Parse u with
  | inr e => joinURL u imageListPutImagesPath = ("", Some e)
  | inl _ => exists pre, joinURL u imageListPutImagesPath = (pre ++ "/images", None)
  end.
Proof.
  rewrite joinURL_images. destruct (Parse u) as [b|e]; [|done].
  destruct (String_images (Scheme b) (User b) (Host b)) as [pre ->]. by exists pre.
Qed.

(** X19: the joined URL takes only scheme, user and host from the base: two
    base URLs that agree on these give the same result, whatever their
    paths, queries and fragments. *)
Theorem joinURL_images_drops_base_path (u1 u2 : string) (b1 b2 : URL) :
  Parse u1 = inl b1 -> Parse u2 = inl b2 ->
  Scheme b1 = Scheme b2 -> User b1 = User b2 -> Host b1 = Host b2 ->
  joinURL u1 imageListPutImagesPath = joinURL u2 imageListPutImagesPath.
Proof.
  intros H1 H2 Hs Hu Hh. rewrite !joinURL_images, H1, H2. by rewrite Hs, Hu, Hh.
Qed.

(** X19 at two bases on one host. *)
Lemma joinURL_images_drops_base_path_witness :
  joinURL "http://host/base?x=1#top" imageListPutImagesPath
    = joinURL "http://host" imageListPutImagesPath.
Proof.
  apply (joinURL_images_drops_base_path "http://host/base?x=1#top" "http://host"
           {| Scheme := "http"; Opaque := ""; User := None; Host := "host";
              NetURL.Path := "/base"; RawPath := ""; ForceQuery := false;
              RawQuery := "x=1"; Fragment := "top" |}
           {| Scheme := "http"; Opaque := ""; User := None; Host := "host";
              NetURL.Path := ""; RawPath := ""; ForceQuery := false;
              RawQuery := ""; Fragment := "" |}); reflexivity.
Defined.

(** X20: the function [main] installs as [app.Action], when it is run:
    with the flag [imagelist-url] not set it returns an exit error with code
    1; with the flag set to a text that does not parse as a URL it returns
    an exit error with code 1 that carries the parse error; otherwise it
    enters its event loop, with a target URL that ends in /images.  It
    returns no exit error with another code. *)
Theorem action_exits_or_loops (flag : option string) :
  match action flag with
  | inl (NewExitError message code) =>
      code = 1%Z /\
      ((flag = None /\ message = MsgURLNotSet) \/
       exists u e, flag = Some u /\ Parse u = inr e /\ message = MsgURLParse e)
  | inr imageListURL =>
      exists u b pre, flag = Some u /\ Parse u = inl b /\ imageListURL = pre ++ "/images"
  end.
Proof.
  destruct flag as [u|]; cbn [action]; [|split; [done | by left]].
  rewrite joinURL_images. destruct (Parse u) as [b|e] eqn:Hp.
  - destruct (String_images (Scheme b) (User b) (Host b)) as [pre ->]. by exists u, b, pre.
  - split; [done|]. right. by exists u, e.
Qed.

(** ** Order and multiplicity of the tags *)

(** X21: the tags are collected entry by entry, in the order of the
    repo-tag entries and without removing duplicates: collecting over two
    lists one after the other gives the two results one after the other.  An
    entry [before ++ ":" ++ t] with a tag token [t] contributes [t] when it
    starts with the name and nothing otherwise; an entry without a tag
    suffix contributes nothing. *)
Theorem collectTags_in_order (name : string) :
  (forall l1 l2,
     collectTags name (l1 ++ l2)%list = (collectTags name l1 ++ collectTags name l2)%list) /\
  (forall before t, isTag t = true ->
     collectTags name [before ++ ":" ++ t] =
       if HasPrefix (before ++ ":" ++ t) name then [t] else []) /\
  (forall entry, MatchString entry = false -> collectTags name [entry] = []).
Proof.
  split; [intros l1 l2; by rewrite !collectTags_flat_map, flat_map_app|].
  split.
  - intros before t Ht. rewrite collectTags_flat_map. cbn [flat_map].
    rewrite List.app_nil_r. unfold entryTag.
    by rewrite FindStringSubmatch_suffix.
  - intros entry Hm. rewrite collectTags_flat_map. cbn [flat_map].
    rewrite List.app_nil_r. unfold entryTag, FindStringSubmatch.
    unfold MatchString in Hm. destruct (find entry); [done|].
    by destruct (HasPrefix entry name).
Qed.

(** X21 at two entries of the repository's test, for the name vaijab/did. *)
Lemma collectTags_in_order_witness :
  collectTags "vaijab/did" ["vaijab/did" ++ ":" ++ "v1"] =
    (if HasPrefix ("vaijab/did" ++ ":" ++ "v1") "vaijab/did" then ["v1"] else []) /\
  collectTags "vaijab/did" ["vaijab/did"] = [].
Proof.
  destruct (collectTags_in_order "vaijab/did") as (_ & H2 & H3).
  split; [apply (H2 "vaijab/did" "v1"); reflexivity | apply H3; reflexivity].
Defined.
